(** * Hazard-curve aggregation and the Berge-Thierry (2003) GMPE

    A shallow embedding of

    - [openquake/hazardlib/calc/hazard_curve.py]
      ([hazard_curves_poissonian]), and
    - [nhlib/gsim/berge_thierry_2003.py] ([BergeThierry2003]).

    Python floats are idealised as real numbers; dictionaries are finite
    maps; exceptions are an explicit error monad; generators are finite
    streams that may end by raising. *)

From Stdlib Require Import Reals Lra Permutation.
From stdpp Require Import base option list strings gmap fin_maps.

Local Open Scope string_scope.
Local Open Scope list_scope.

(** ** Exceptions *)

(** A Python exception (an instance of a subclass of [Exception]): its
    class name and its [message] attribute. *)
Record exn := mkExn { exn_type : string; message : string }.

Definition KeyError (m : string) : exn := mkExn "KeyError" m.
Definition ValueError (m : string) : exn := mkExn "ValueError" m.
Definition TypeError (m : string) : exn := mkExn "TypeError" m.
Definition AttributeError (m : string) : exn := mkExn "AttributeError" m.
Definition AssertionError (m : string) : exn := mkExn "AssertionError" m.
Definition IndexError (m : string) : exn := mkExn "IndexError" m.
Definition RuntimeError (m : string) : exn := mkExn "RuntimeError" m.

(** The outcome of a call: a returned value or a raised exception. *)
Inductive result (A : Type) : Type :=
| Ok (a : A)
| Raise (e : exn).
Arguments Ok {A} a.
Arguments Raise {A} e.

Definition bind {A B : Type} (r : result A) (k : A -> result B) : result B :=
  match r with
  | Ok a => k a
  | Raise e => Raise e
  end.

Notation "'let!' x ':=' r 'in' k" := (bind r (fun x => k))
  (at level 10, x name, r at level 100, k at level 200).

(** What the caller gets back when the call returns, [None] when it raised. *)
Definition returned {A : Type} (r : result A) : option A :=
  match r with
  | Ok a => Some a
  | Raise _ => None
  end.

(** ** Two-dimensional numpy arrays *)

(** A 2-d [numpy.ndarray] of floats: the second component of its shape and
    its rows.  The first component of the shape is the number of rows. *)
Record ndarray := mkArr { ncols : nat; rows : list (list R) }.

Definition nrows (a : ndarray) : nat := length (rows a).
Definition shape (a : ndarray) : nat * nat := (nrows a, ncols a).

(** [a[i, j]], with 0 outside the array. *)
Definition item (a : ndarray) (i j : nat) : R :=
  match rows a !! i with
  | Some r => match r !! j with Some x => x | None => 0%R end
  | None => 0%R
  end.

(** [numpy.ones([n, m])] *)
Definition ones (n m : nat) : ndarray :=
  mkArr m (replicate n (replicate m 1%R)).

(** An element-wise unary operation (the array is rebuilt). *)
Definition arr_map (f : R -> R) (a : ndarray) : ndarray :=
  mkArr (ncols a) ((fun r : list R => f <$> r) <$> rows a).

(** The index that numpy reads along a dimension of size [d] of an operand
    that is broadcast: a dimension of size 1 is stretched, so its only index
    is read everywhere. *)
Definition bindex (d i : nat) : nat := if decide (d = 1) then 0 else i.

(** The value of [b] that meets position [(i, j)] when [b] is broadcast. *)
Definition bitem (b : ndarray) (i j : nat) : R :=
  item b (bindex (nrows b) i) (bindex (ncols b) j).

(** [b] can be broadcast to the shape of [a]: along each dimension it has
    the size of [a] or the size 1. *)
Definition broadcastable_to (a b : ndarray) : Prop :=
  (nrows b = nrows a \/ nrows b = 1) /\ (ncols b = ncols a \/ ncols b = 1).

(** [a *= b]: every element of [a] is multiplied in place by the element
    of [b] that broadcasting puts at its position; [a] keeps its shape.  An
    operand that cannot be broadcast to the shape of [a] raises. *)
Definition arr_imul (a b : ndarray) : result ndarray :=
  if decide ((nrows b = nrows a \/ nrows b = 1) /\
             (ncols b = ncols a \/ ncols b = 1)) then
    Ok (mkArr (ncols a)
          (imap (fun i r => imap (fun j x => (x * bitem b i j)%R) r) (rows a)))
  else Raise (ValueError "operands could not be broadcast together").

(** [x ** y] on floats, as numpy computes it on the domain the calculator
    uses it ([0 <= x], [0 <= y]): [0 ** 0 = 1], [0 ** y = 0] for positive
    [y], and [exp (y * ln x)] for positive [x]. *)
Definition npow (x y : R) : R :=
  if Req_dec_T x 0 then (if Req_dec_T y 0 then 1%R else 0%R)
  else Rpower x y.

(** ** One-dimensional values and context objects *)

(** A float or a 1-d array of floats, as found in the attributes of the
    context objects handed to a ground-shaking intensity model. *)
Inductive npval :=
| Scalar (x : R)
| Vec (l : list R).

(** A context object (sites, rupture or distances context): its attributes
    by name.  Reading a missing attribute raises [AttributeError]. *)
Abbreviation Context := (gmap string npval) (only parsing).

Definition getattr (obj : Context) (name : string) : result npval :=
  match obj !! name with
  | Some v => Ok v
  | None => Raise (AttributeError name)
  end.

(** ** The hazard-curve calculator *)

Module HazardCurve.

Abbreviation IMT := string (only parsing).
Abbreviation TRT := string (only parsing).

(** A (sub)collection of sites: for each of its sites, in order, the
    position of that site in the complete collection. *)
Record SiteCollection := mkSites { indices : list nat }.

Definition len (s : SiteCollection) : nat := length (indices s).

(** The complete collection of [n] sites. *)
Definition complete (n : nat) : SiteCollection := mkSites (seq 0 n).

(** Modelled from the spec: [SiteCollection.expand] (the site module is not
    among the sources).  The array [data], defined over the sites of the
    subset [s], is scattered into an array over [total_sites] sites: the
    row of a site of [s] is its row of [data], every other row is filled
    with [placeholder]. *)
Definition expand (s : SiteCollection) (data : ndarray) (total_sites : nat)
    (placeholder : R) : ndarray :=
  let blank := replicate (ncols data) placeholder in
  mkArr (ncols data)
    ((fun i =>
        match list_find (eq i) (indices s) with
        | Some (k, _) => default blank (rows data !! k)
        | None => blank
        end) <$> seq 0 total_sites).

(** Modelled from the spec: [PoissonTOM] (the tom module is not among the
    sources): a temporal occurrence model configured with its time span. *)
Record TOM := PoissonTOM { time_span_of : R }.

(** A rupture: its tectonic region type and the outcome of
    [get_probability_one_or_more_occurrences()]. *)
Record Rupture := mkRupture {
  tectonic_region_type : TRT;
  get_probability_one_or_more_occurrences : result R
}.

(** A finite one-shot generator: it yields values and either stops or
    raises. *)
Inductive gen (A : Type) : Type :=
| Stop
| Yield (a : A) (rest : gen A)
| Throw (e : exn).
Arguments Stop {A}.
Arguments Yield {A} a rest.
Arguments Throw {A} e.

Fixpoint yields {A : Type} (a : A) (g : gen A) : Prop :=
  match g with
  | Stop => False
  | Yield b rest => a = b \/ yields a rest
  | Throw _ => False
  end.

Record Source := mkSource {
  source_id : string;
  iter_ruptures : TOM -> gen Rupture
}.

(** A ground-shaking intensity model, as the calculator uses it. *)
Record GSIM := mkGSIM {
  make_contexts :
    SiteCollection -> Rupture -> result (Context * Context * Context);
  get_poes_cav :
    Context * Context * Context -> IMT -> list R -> R -> R -> result ndarray
}.

(** Modelled from the spec: the filters (the filters module is not among
    the sources).  A filter decides entity by entity, in order: it keeps the
    entity with a possibly smaller site subset, drops it, or raises. *)
Definition site_filter (E : Type) : Type :=
  E -> SiteCollection -> result (option SiteCollection).

Definition source_site_noop_filter : site_filter Source :=
  fun _ s => Ok (Some s).
Definition rupture_site_noop_filter : site_filter Rupture :=
  fun _ s => Ok (Some s).

(** A loop whose body may raise. *)
Fixpoint foldM {A S : Type} (f : S -> A -> result S) (l : list A) (s : S)
    : result S :=
  match l with
  | [] => Ok s
  | x :: l' => let! s' := f s x in foldM f l' s'
  end.

Section Calculator.

Variable sites : SiteCollection.
Variable imts : gmap IMT (list R).
Variable time_span : R.
Variable gsims : gmap TRT GSIM.
Variable truncation_level : R.
Variable source_site_filter : site_filter Source.
Variable rupture_site_filter : site_filter Rupture.
Variable cav_min : R.

(** [dict((imt, numpy.ones([len(sites), len(imts[imt])])) for imt in imts)] *)
Definition init_curves : gmap IMT ndarray :=
  (fun levels => ones (len sites) (length levels)) <$> imts.

(** [curves[imt] *= b] *)
Definition imul_at (curves : gmap IMT ndarray) (imt : IMT) (b : ndarray)
    : result (gmap IMT ndarray) :=
  match curves !! imt with
  | None => Raise (KeyError imt)
  | Some a => let! a' := arr_imul a b in Ok (<[imt := a']> curves)
  end.

(** The body of [for imt in imts]. *)
Definition fold_imt (gsim : GSIM) (ctxs : Context * Context * Context)
    (r_sites : SiteCollection) (prob : R) (total_sites : nat)
    (curves : gmap IMT ndarray) (kv : IMT * list R)
    : result (gmap IMT ndarray) :=
  let! poes := get_poes_cav gsim ctxs kv.1 kv.2 truncation_level cav_min in
  imul_at curves kv.1
    (expand r_sites (arr_map (npow (1 - prob)) poes) total_sites 1).

(** [gsims[trt]] *)
Definition gsims_getitem (trt : TRT) : result GSIM :=
  match gsims !! trt with
  | Some gsim => Ok gsim
  | None => Raise (KeyError trt)
  end.

(** The body of the loop over the filtered ruptures. *)
Definition fold_rupture (total_sites : nat) (rupture : Rupture)
    (r_sites : SiteCollection) (curves : gmap IMT ndarray)
    : result (gmap IMT ndarray) :=
  let! prob := get_probability_one_or_more_occurrences rupture in
  let! gsim := gsims_getitem (tectonic_region_type rupture) in
  let! ctxs := make_contexts gsim r_sites rupture in
  foldM (fold_imt gsim ctxs r_sites prob total_sites) (map_to_list imts) curves.

(** The loop over [rupture_site_filter(ruptures_sites)]. *)
Fixpoint fold_ruptures (total_sites : nat) (ruptures : gen Rupture)
    (s_sites : SiteCollection) (curves : gmap IMT ndarray)
    : result (gmap IMT ndarray) :=
  match ruptures with
  | Stop => Ok curves
  | Throw e => Raise e
  | Yield rupture rest =>
      let! kept := rupture_site_filter rupture s_sites in
      match kept with
      | None => fold_ruptures total_sites rest s_sites curves
      | Some r_sites =>
          let! curves' := fold_rupture total_sites rupture r_sites curves in
          fold_ruptures total_sites rest s_sites curves'
      end
  end.

(** The message of the error raised by the [except] clause. *)
Definition source_error_msg (source : Source) (err : exn) : string :=
  "An error occurred with source id=" +:+ source_id source +:+
  ". Error: " +:+ message err.

(** The [try ... except Exception, err] statement. *)
Definition try_source (tom : TOM) (total_sites : nat) (source : Source)
    (s_sites : SiteCollection) (curves : gmap IMT ndarray)
    : result (gmap IMT ndarray) :=
  match fold_ruptures total_sites (iter_ruptures source tom) s_sites curves with
  | Ok curves' => Ok curves'
  | Raise err => Raise (RuntimeError (source_error_msg source err))
  end.

(** The loop over [source_site_filter(sources_sites)]; the filter runs in
    the loop header, outside the [try]. *)
Fixpoint fold_sources (tom : TOM) (total_sites : nat) (sources : list Source)
    (curves : gmap IMT ndarray) : result (gmap IMT ndarray) :=
  match sources with
  | [] => Ok curves
  | source :: rest =>
      let! kept := source_site_filter source sites in
      match kept with
      | None => fold_sources tom total_sites rest curves
      | Some s_sites =>
          let! curves' := try_source tom total_sites source s_sites curves in
          fold_sources tom total_sites rest curves'
      end
  end.

(** [curves[imt] = 1 - curves[imt]] *)
Definition complement_at (curves : gmap IMT ndarray) (kv : IMT * list R)
    : result (gmap IMT ndarray) :=
  match curves !! kv.1 with
  | None => Raise (KeyError kv.1)
  | Some a => Ok (<[kv.1 := arr_map (fun x => (1 - x)%R) a]> curves)
  end.

Definition hazard_curves_poissonian (sources : list Source)
    : result (gmap IMT ndarray) :=
  let curves := init_curves in
  let tom := PoissonTOM time_span in
  let total_sites := len sites in
  let! curves := fold_sources tom total_sites sources curves in
  foldM complement_at (map_to_list imts) curves.

End Calculator.

End HazardCurve.

(** ** The Berge-Thierry et al. (2003) GMPE *)

Module BergeThierry2003.

(** Intensity measure types: [PGA()] and [PGV()] are empty tuples,
    [SA(period, damping)] is a pair. *)
Inductive IMT :=
| PGA
| PGV
| SA (period damping : R).

Inductive StdDev :=
| TOTAL
| INTER_EVENT
| INTRA_EVENT.

(** One row of a coefficient table. *)
Record Coeffs := mkCoeffs { a : R; b : R; c1 : R; c2 : R; std : R }.

(** [imt[1]] *)
Definition imt_item1 (imt : IMT) : result R :=
  match imt with
  | SA _ damping => Ok damping
  | _ => Raise (IndexError "tuple index out of range")
  end.

(** Element-wise unary operation on a float or an array. *)
Definition np_map (f : R -> R) (v : npval) : npval :=
  match v with
  | Scalar x => Scalar (f x)
  | Vec l => Vec (f <$> l)
  end.

(** Element-wise binary operation with numpy's broadcasting of floats and
    1-d arrays. *)
Definition np_binop (f : R -> R -> R) (v w : npval) : result npval :=
  match v, w with
  | Scalar x, Scalar y => Ok (Scalar (f x y))
  | Scalar x, Vec l => Ok (Vec (f x <$> l))
  | Vec l, Scalar y => Ok (Vec ((fun x => f x y) <$> l))
  | Vec l1, Vec l2 =>
      if decide (length l1 = length l2) then Ok (Vec (zip_with f l1 l2))
      else match l1, l2 with
           | [x], _ => Ok (Vec (f x <$> l2))
           | _, [y] => Ok (Vec ((fun x => f x y) <$> l1))
           | _, _ =>
               Raise (ValueError "operands could not be broadcast together")
           end
  end.

(** [np.log10] and [np.log] on positive floats. *)
Definition log10 (x : R) : R := (ln x / ln 10)%R.

Section Model.

(** Item access [COEFFS05[imt]] and [COEFFS20[imt]].  [CoeffsTable] is
    defined in the gsim base module, which is not among the sources, so the
    look-up in the two tables is a parameter of the model. *)
Variable COEFFS05 : IMT -> result Coeffs.
Variable COEFFS20 : IMT -> result Coeffs.

(** [{5: self.COEFFS05, 20: self.COEFFS20}[damping]] *)
Definition table_for (damping : R) : result (IMT -> result Coeffs) :=
  if Req_dec_T damping 5 then Ok COEFFS05
  else if Req_dec_T damping 20 then Ok COEFFS20
  else Raise (KeyError "damping").

Definition _compute_magnitude_scaling (rup : Context) (C : Coeffs)
    : result npval :=
  let! mag := getattr rup "mag" in
  Ok (np_map (fun m => (a C * m)%R) mag).

Definition _compute_distance_scaling (dists : Context) (C : Coeffs)
    : result npval :=
  let! r1 := getattr dists "rhypo" in
  let! r2 := getattr dists "rhypo" in
  np_binop Rminus (np_map (fun r => (b C * r)%R) r1) (np_map log10 r2).

Definition _get_site_amplification (sites : Context) (C : Coeffs)
    : result npval :=
  let! vs30s := getattr sites "vs30" in
  match vs30s with
  | Scalar _ => Raise (TypeError "object is not iterable")
  | Vec l =>
      Ok (Vec ((fun vs30 => if Rge_dec vs30 800 then c1 C else c2 C) <$> l))
  end.

(** The loop of [_get_stddevs]. *)
Fixpoint stddevs_loop (C : Coeffs) (stddev_types : list StdDev)
    (num_sites : nat) : result (list (list R)) :=
  match stddev_types with
  | [] => Ok []
  | stddev_type :: rest =>
      match stddev_type with
      | TOTAL =>
          let! more := stddevs_loop C rest num_sites in
          Ok (replicate num_sites (std C + 0)%R :: more)
      | _ => Raise (AssertionError "")
      end
  end.

Definition _get_stddevs (C : Coeffs) (stddev_types : list StdDev)
    (num_sites : nat) : result (list (list R)) :=
  let! stddevs := stddevs_loop C stddev_types num_sites in
  Ok ((fun r : list R => npow 10 <$> r) <$> stddevs).

(** [len(x)] *)
Definition np_len (v : npval) : result nat :=
  match v with
  | Scalar _ => Raise (TypeError "object has no len()")
  | Vec l => Ok (length l)
  end.

Definition get_mean_and_stddevs (sites rup dists : Context) (imt : IMT)
    (stddev_types : list StdDev) : result (npval * list (list R)) :=
  let! damping := imt_item1 imt in
  let! table := table_for damping in
  let! C := table imt in
  let! mag_term := _compute_magnitude_scaling rup C in
  let! dist_term := _compute_distance_scaling rup C in
  let! sum1 := np_binop Rplus mag_term dist_term in
  let! site_term := _get_site_amplification sites C in
  let! log10_mean := np_binop Rplus sum1 site_term in
  let mean := np_map (fun x => (npow 10 x / 981)%R) log10_mean in
  let mean := np_map ln mean in
  let! vs30s := getattr sites "vs30" in
  let! num_sites := np_len vs30s in
  let! stddevs := _get_stddevs C stddev_types num_sites in
  let stddevs := (fun r : list R => ln <$> r) <$> stddevs in
  Ok (mean, stddevs).

End Model.

(** The declarations of the class: the standard deviation types it is
    defined for, and the site, rupture and distance parameters it says it
    requires. *)
Definition DEFINED_FOR_STANDARD_DEVIATION_TYPES : list StdDev := [TOTAL].
Definition REQUIRES_SITES_PARAMETERS : gset string := {["vs30"]}.
Definition REQUIRES_RUPTURE_PARAMETERS : gset string := {["mag"]}.
Definition REQUIRES_DISTANCES : gset string := {["rhypo"]}.

End BergeThierry2003.

(** * Vocabulary of the statements *)

Definition zeros (n m : nat) : ndarray :=
  mkArr m (replicate n (replicate m 0%R)).

(** Every value of the array lies in [[0, 1]]. *)
Definition in01 (a : ndarray) : Prop :=
  Forall (Forall (fun x => (0 <= x <= 1)%R)) (rows a).

(** Every accumulator has all its values in [[0, 1]]. *)
Definition curves_in01 (curves : gmap string ndarray) : Prop :=
  forall imt a, curves !! imt = Some a -> in01 a.

(** Element-wise, no value of [curves'] is above the value of [curves]. *)
Definition curves_le (curves' curves : gmap string ndarray) : Prop :=
  forall imt a a', curves !! imt = Some a -> curves' !! imt = Some a' ->
  forall i j, (item a' i j <= item a i j)%R.

(** The same keys before and after. *)
Definition same_keys (c c' : gmap string ndarray) : Prop :=
  forall k, is_Some (c' !! k) <-> is_Some (c !! k).

(** The occurrence probability of the rupture, when it is computed, lies in
    [[0, 1]]. *)
Definition prob_in01 (rupture : HazardCurve.Rupture) : Prop :=
  forall prob,
  HazardCurve.get_probability_one_or_more_occurrences rupture = Ok prob ->
  (0 <= prob <= 1)%R.

(** One in-place product [curves[imt] *= b], forgetting which error it
    raises when it raises. *)
Definition apply_update (c : gmap string ndarray) (u : string * ndarray)
    : option (gmap string ndarray) :=
  returned (HazardCurve.imul_at c u.1 u.2).

Fixpoint apply_updates (us : list (string * ndarray))
    (c : gmap string ndarray) : option (gmap string ndarray) :=
  match us with
  | [] => Some c
  | u :: us' => apply_update c u ≫= apply_updates us'
  end.

(** A step on the accumulators that either always raises or is a series of
    in-place products by arrays that do not depend on the accumulators. *)
Definition product_step
    (F : gmap string ndarray -> option (gmap string ndarray)) : Prop :=
  exists o : option (list (string * ndarray)),
  forall c, F c = match o with
                  | Some us => apply_updates us c
                  | None => None
                  end.

(** The rows of [a *= b]. *)
Definition mul_rows (rs : list (list R)) (b : ndarray) : list (list R) :=
  imap (fun i r => imap (fun j x => (x * bitem b i j)%R) r) rs.

(** Every row of the array has as many values as its shape says. *)
Definition proper (a : ndarray) : Prop :=
  Forall (fun r => length r = ncols a) (rows a).

(** The accumulator of [imt] in [c'] has the shape of the one in [c], and
    is a proper array when that one is. *)
Definition keeps_shapes (c c' : gmap string ndarray) : Prop :=
  same_keys c c' /\
  forall k a a', c !! k = Some a -> c' !! k = Some a' ->
  shape a' = shape a /\ (proper a -> proper a').

(** The product of the values at [(i, j)] of the arrays that the in-place
    products [us] multiply into the accumulator of [k]. *)
Fixpoint update_factor (us : list (string * ndarray)) (k : string)
    (i j : nat) : R :=
  match us with
  | [] => 1%R
  | u :: us' =>
      if decide (u.1 = k) then (bitem u.2 i j * update_factor us' k i j)%R
      else update_factor us' k i j
  end.

(** Row [i] of every accumulator is the same in [c'] as in [c]. *)
Definition keeps_row (i : nat) (c c' : gmap string ndarray) : Prop :=
  keeps_shapes c c' /\
  forall k a a', c !! k = Some a -> c' !! k = Some a' ->
  forall j, j < ncols a -> item a' i j = item a i j.

(** From accumulators in [[0, 1]] to accumulators in [[0, 1]] that are
    nowhere higher. *)
Definition shrinks (c c' : gmap string ndarray) : Prop :=
  same_keys c c' /\
  (curves_in01 c -> curves_in01 c' /\ curves_le c' c).

(** The generator that yields the ruptures of [l] and goes on as [g]. *)
Definition gen_app {A : Type} (l : list A) (g : HazardCurve.gen A)
    : HazardCurve.gen A :=
  foldr HazardCurve.Yield g l.

(** The two error classes the specification names for a missing
    ground-motion model. *)
Definition is_configuration_error (e : exn) : Prop :=
  exn_type e = "ConfigurationError" \/
  exn_type e = "UnsupportedTectonicRegionError".

(** ** Concrete inputs *)

Module Scenarios.
Import HazardCurve.

(** A ground-motion model stub: the sites context records one [vs30] per
    site, and every site and level gets the exceedance probability [poe]. *)
Definition stub_make_contexts (r_sites : SiteCollection) (_ : Rupture)
    : result (Context * Context * Context) :=
  Ok ({["vs30" := Vec (replicate (len r_sites) 760%R)]}, ∅, ∅).

Definition stub_num_sites (ctxs : Context * Context * Context) : nat :=
  match ctxs.1.1 !! "vs30" with
  | Some (Vec l) => length l
  | _ => 0
  end.

Definition stub_gsim (poe : R) : GSIM :=
  mkGSIM stub_make_contexts
    (fun ctxs _ levels _ _ =>
       Ok (mkArr (length levels)
             (replicate (stub_num_sites ctxs)
                (replicate (length levels) poe)))).

(** A model that answers a single column whatever the number of levels,
    and an IMT with two levels. *)
Definition one_column_gsim (poe : R) : GSIM :=
  mkGSIM stub_make_contexts
    (fun ctxs _ _ _ _ =>
       Ok (mkArr 1 (replicate (stub_num_sites ctxs) [poe]))).
Definition pga_two_levels : gmap string (list R) :=
  {["PGA" := [0.2%R; 0.4%R]]}.

(** A source that yields the given ruptures and stops. *)
Definition source_of (id : string) (ruptures : list Rupture) : Source :=
  mkSource id (fun _ => gen_app ruptures Stop).

Definition crust : string := "Active Shallow Crust".

Definition one_site : SiteCollection := complete 1.
Definition pga_one_level : gmap string (list R) := {["PGA" := [0.2%R]]}.
Definition crust_only (poe : R) : gmap string GSIM :=
  {[crust := stub_gsim poe]}.

Definition rupture_01 : Rupture := mkRupture crust (Ok 0.1%R).
Definition rupture_02 : Rupture := mkRupture crust (Ok 0.2%R).
Definition source_a : Source := source_of "a" [rupture_01].
Definition source_b : Source := source_of "b" [rupture_02].

(** A rupture of a region type for which no model is configured. *)
Definition volcanic_rupture : Rupture := mkRupture "Volcanic" (Ok 0.1%R).
Definition volcanic_source : Source := source_of "v" [volcanic_rupture].

(** Filters that reject the geometry of everything they see. *)
Definition filter_error : exn := mkExn "FilterError" "malformed geometry".
Definition failing_source_filter : site_filter Source :=
  fun _ _ => Raise filter_error.
Definition failing_rupture_filter : site_filter Rupture :=
  fun _ _ => Raise filter_error.

(** A sites context for the GMPE: a rock site at the class boundary and an
    alluvium site; and the row of the 5%-damping table for 0.03 s. *)
Definition two_sites : Context := {["vs30" := Vec [800%R; 500%R]]}.
Definition row_003 : BergeThierry2003.Coeffs :=
  BergeThierry2003.mkCoeffs 0.3114 (-0.0009334) 1.541 1.576 0.2924.

(** Two sites, and a rupture-site filter that never keeps the second. *)
Definition two_site_collection : SiteCollection := complete 2.
Definition without_site_1 : site_filter Rupture :=
  fun _ s => Ok (Some (mkSites (filter (fun i => i <> 1) (indices s)))).

(** Ruptures that never occur and that occur for sure. *)
Definition rupture_never : Rupture := mkRupture crust (Ok 0%R).
Definition rupture_certain : Rupture := mkRupture crust (Ok 1%R).

(** A source without ruptures; a filter that drops the ruptures of one
    region type; sources that differ by such a rupture, or by the order of
    their ruptures. *)
Definition empty_source : Source := source_of "e" [].
Definition drop_volcanic : site_filter Rupture :=
  fun r s =>
    if decide (tectonic_region_type r = "Volcanic") then Ok None
    else Ok (Some s).
Definition mixed_source : Source :=
  source_of "m" [rupture_01; volcanic_rupture; rupture_02].
Definition unmixed_source : Source :=
  source_of "m" [rupture_01; rupture_02].
Definition reversed_source : Source :=
  source_of "r" [rupture_02; rupture_01].

(** Inputs of the GMPE: a table whose row for every spectral acceleration
    is [row_003], a rupture context with magnitude 5 at 10 km (its [rhypo]
    next to its [mag]), the same without [rhypo], and a distance context
    that has [rhypo]. *)
Definition table_003 (imt : BergeThierry2003.IMT)
    : result BergeThierry2003.Coeffs :=
  match imt with
  | BergeThierry2003.SA _ _ => Ok row_003
  | _ => Raise (KeyError "imt")
  end.
Definition rup_m5_r10 : Context :=
  {["mag" := Scalar 5%R; "rhypo" := Scalar 10%R]}.
Definition rup_m5 : Context := {["mag" := Scalar 5%R]}.
Definition dists_r10 : Context := {["rhypo" := Vec [10%R; 10%R]]}.
Definition rup_m5_r3 : Context :=
  {["mag" := Scalar 5%R; "rhypo" := Vec [10%R; 20%R; 30%R]]}.

End Scenarios.

(** * Properties *)

(** ** Arrays *)

Lemma item_imul a b c i j :
  arr_imul a b = Ok c -> item c i j = (item a i j * bitem b i j)%R.
Proof.
  unfold arr_imul. case_decide; [|done]. intros [= <-].
  unfold item at 1 2; simpl. rewrite list_lookup_imap.
  destruct (rows a !! i) as [r|]; simpl; [|by rewrite Rmult_0_l].
  rewrite list_lookup_imap.
  destruct (r !! j); simpl; [done|by rewrite Rmult_0_l].
Qed.

Lemma shape_imul a b c : arr_imul a b = Ok c -> shape c = shape a.
Proof.
  unfold arr_imul. case_decide; [|done]. intros [= <-].
  unfold shape, nrows; simpl. by rewrite length_imap.
Qed.

Lemma imul_broadcastable a b c :
  arr_imul a b = Ok c -> broadcastable_to a b.
Proof. unfold arr_imul. by case_decide. Qed.

Lemma bindex_in_range d i : i < d -> bindex d i = i.
Proof. unfold bindex. case_decide; [lia|done]. Qed.

Lemma bindex_stretched d d' j : d = d' \/ d = 1 -> j < d' -> bindex d j < d.
Proof. unfold bindex. case_decide; lia. Qed.


Lemma arr_map_ones_complement n m :
  arr_map (fun x => (1 - x)%R) (ones n m) = zeros n m.
Proof.
  unfold arr_map, ones, zeros; simpl. f_equal.
  rewrite !fmap_replicate. do 2 f_equal. lra.
Qed.

Lemma item_in01 a i j : in01 a -> (0 <= item a i j <= 1)%R.
Proof.
  intros Ha. unfold item.
  destruct (rows a !! i) as [r|] eqn:Hr; [|lra].
  destruct (r !! j) as [x|] eqn:Hx; [|lra].
  unfold in01 in Ha. rewrite Forall_lookup in Ha.
  specialize (Ha _ _ Hr). rewrite Forall_lookup in Ha. by apply (Ha j).
Qed.

Lemma bitem_in01 b i j : in01 b -> (0 <= bitem b i j <= 1)%R.
Proof. intros Hb. unfold bitem. by apply item_in01. Qed.

Lemma in01_item a :
  (forall i r j x, rows a !! i = Some r -> r !! j = Some x ->
     (0 <= x <= 1)%R) ->
  in01 a.
Proof.
  intros H. apply Forall_lookup; intros i r Hr.
  apply Forall_lookup; intros j x Hx. eauto.
Qed.

Lemma lookup_item a i r j x :
  rows a !! i = Some r -> r !! j = Some x -> item a i j = x.
Proof. intros Hr Hx. unfold item. by rewrite Hr, Hx. Qed.

Lemma npow_unit_interval x y :
  (0 <= x <= 1)%R -> (0 <= y)%R -> (0 <= npow x y <= 1)%R.
Proof.
  intros [Hx0 Hx1] Hy. unfold npow.
  destruct (Req_dec_T x 0) as [->|Hx].
  - destruct (Req_dec_T y 0); lra.
  - assert (0 < x)%R as Hpos by lra. unfold Rpower. split.
    + left. apply exp_pos.
    + assert (ln x <= 0)%R as Hln.
      { rewrite <- ln_1. destruct Hx1 as [Hlt| ->]; [|lra].
        left. by apply ln_increasing. }
      assert (y * ln x <= 0)%R as Hle by nra.
      rewrite <- exp_0. destruct Hle as [Hlt|Heq].
      * left. by apply exp_increasing.
      * rewrite Heq. lra.
Qed.

Lemma in01_arr_map f a :
  (forall x, (0 <= x <= 1)%R -> (0 <= f x <= 1)%R) -> in01 a -> in01 (arr_map f a).
Proof.
  intros Hf Ha. unfold in01, arr_map; simpl.
  apply Forall_fmap. eapply Forall_impl; [exact Ha|].
  intros r Hr; simpl. apply Forall_fmap. eapply Forall_impl; [exact Hr|].
  intros x Hx; simpl. by apply Hf.
Qed.

Lemma in01_imul a b c :
  in01 a -> in01 b -> arr_imul a b = Ok c -> in01 c.
Proof.
  intros Ha Hb. unfold arr_imul. case_decide; [|done]. intros [= <-].
  apply in01_item; simpl. intros i r j x Hr Hx.
  apply list_lookup_imap_Some in Hr as (r0 & Hr0 & ->).
  apply list_lookup_imap_Some in Hx as (x0 & Hx0 & ->).
  pose proof (item_in01 b (bindex (nrows b) i) (bindex (ncols b) j) Hb).
  fold (bitem b i j) in *.
  pose proof (item_in01 a i j Ha) as Hx0'.
  rewrite (lookup_item a i r0 j x0 Hr0 Hx0) in Hx0'. nra.
Qed.

Lemma in01_ones n m : in01 (ones n m).
Proof.
  unfold in01, ones; simpl. apply Forall_replicate, Forall_replicate. lra.
Qed.

(** ** In-place products commute *)

Lemma mul_rows_comm rs b1 b2 :
  mul_rows (mul_rows rs b1) b2 = mul_rows (mul_rows rs b2) b1.
Proof.
  unfold mul_rows. apply list_eq; intros i.
  rewrite !list_lookup_imap. destruct (rs !! i) as [r|]; simpl; [|done].
  f_equal. apply list_eq; intros j. rewrite !list_lookup_imap.
  destruct (r !! j) as [x|]; simpl; [|done]. f_equal. lra.
Qed.

Lemma apply_update_Some c u c' :
  apply_update c u = Some c' <->
  exists a, c !! u.1 = Some a /\ broadcastable_to a u.2 /\
            c' = <[u.1 := mkArr (ncols a) (mul_rows (rows a) u.2)]> c.
Proof.
  unfold apply_update, HazardCurve.imul_at, arr_imul. split.
  - destruct (c !! u.1) as [a|]; [|done]. case_decide; [|done].
    simpl. intros [= <-]. by exists a.
  - intros (a & -> & Hs & ->). by rewrite decide_True.
Qed.

Lemma broadcastable_to_shape a a' b :
  shape a' = shape a -> broadcastable_to a b -> broadcastable_to a' b.
Proof.
  unfold shape, broadcastable_to. intros [= Hr Hc]. by rewrite Hr, Hc.
Qed.

Lemma shape_mul_rows a b :
  shape (mkArr (ncols a) (mul_rows (rows a) b)) = shape a.
Proof. unfold shape, nrows, mul_rows; simpl. by rewrite length_imap. Qed.

Lemma apply_update_swap_Some c u1 u2 c' :
  apply_update c u1 ≫= (fun c1 => apply_update c1 u2) = Some c' ->
  apply_update c u2 ≫= (fun c2 => apply_update c2 u1) = Some c'.
Proof.
  intros H. apply bind_Some in H as (c1 & H1 & H2).
  apply apply_update_Some in H1 as (a1 & Ha1 & Hs1 & ->).
  apply apply_update_Some in H2 as (a2 & Ha2 & Hs2 & ->).
  apply bind_Some. destruct (decide (u1.1 = u2.1)) as [Heq|Hne].
  - rewrite <- Heq in *. rewrite lookup_insert_eq in Ha2.
    injection Ha2 as <-.
    apply (broadcastable_to_shape _ a1) in Hs2;
      [|by rewrite shape_mul_rows]. simpl.
    exists (<[u1.1 := mkArr (ncols a1) (mul_rows (rows a1) u2.2)]> c).
    split.
    + apply apply_update_Some. exists a1. by rewrite <- Heq.
    + apply apply_update_Some.
      exists (mkArr (ncols a1) (mul_rows (rows a1) u2.2)).
      rewrite lookup_insert_eq. split; [done|]. split.
      { eapply broadcastable_to_shape; [|exact Hs1].
        by rewrite shape_mul_rows. }
      simpl. rewrite !insert_insert_eq. by rewrite mul_rows_comm.
  - rewrite lookup_insert_ne in Ha2 by done.
    exists (<[u2.1 := mkArr (ncols a2) (mul_rows (rows a2) u2.2)]> c).
    split.
    + apply apply_update_Some. by exists a2.
    + apply apply_update_Some. exists a1.
      rewrite lookup_insert_ne by done. split; [done|]. split; [done|].
      by apply insert_insert_ne.
Qed.

Lemma apply_update_swap c u1 u2 :
  apply_update c u1 ≫= (fun c1 => apply_update c1 u2) =
  apply_update c u2 ≫= (fun c2 => apply_update c2 u1).
Proof.
  destruct (apply_update c u1 ≫= (fun c1 => apply_update c1 u2))
    as [c'|] eqn:E1.
  - symmetry. by apply apply_update_swap_Some.
  - destruct (apply_update c u2 ≫= (fun c2 => apply_update c2 u1))
      as [c'|] eqn:E2; [|done].
    apply apply_update_swap_Some in E2. congruence.
Qed.

Lemma apply_updates_app us1 us2 c :
  apply_updates (us1 ++ us2) c = apply_updates us1 c ≫= apply_updates us2.
Proof.
  revert c. induction us1 as [|u us1 IH]; intros c; simpl; [done|].
  destruct (apply_update c u); simpl; [apply IH|done].
Qed.

Lemma apply_updates_perm us us' :
  us ≡ₚ us' -> forall c, apply_updates us c = apply_updates us' c.
Proof.
  induction 1 as [|u us us' _ IH|u1 u2 us|us1 us2 us3 _ IH1 _ IH2];
    intros c.
  - done.
  - simpl. destruct (apply_update c u); simpl; [apply IH|done].
  - assert (forall v1 v2,
              apply_updates (v1 :: v2 :: us) c =
              (apply_update c v1 ≫= (fun c1 => apply_update c1 v2))
                ≫= apply_updates us) as Hassoc.
    { intros v1 v2; simpl. by destruct (apply_update c v1). }
    by rewrite !Hassoc, apply_update_swap.
  - by rewrite IH1.
Qed.

Lemma product_step_ret : product_step Some.
Proof. by exists (Some []). Qed.

Lemma product_step_fail : product_step (fun _ => None).
Proof. by exists None. Qed.

Lemma product_step_update u : product_step (fun c => apply_update c u).
Proof.
  exists (Some [u]). intros c; simpl. by destruct (apply_update c u).
Qed.

Lemma product_step_bind F G :
  product_step F -> product_step G -> product_step (fun c => F c ≫= G).
Proof.
  intros [[usF|] HF] [[usG|] HG].
  - exists (Some (usF ++ usG)). intros c.
    rewrite HF, apply_updates_app. by apply option_bind_ext_fun.
  - exists None. intros c. rewrite HF.
    destruct (apply_updates usF c); simpl; [apply HG|done].
  - exists None. intros c. by rewrite HF.
  - exists None. intros c. by rewrite HF.
Qed.

Lemma product_step_ext F G :
  (forall c, F c = G c) -> product_step G -> product_step F.
Proof. intros Heq [o Ho]. exists o. intros c. by rewrite Heq. Qed.

Lemma product_step_comm F G :
  product_step F -> product_step G ->
  forall c, F c ≫= G = G c ≫= F.
Proof.
  intros [[usF|] HF] [[usG|] HG] c.
  - rewrite HF, HG.
    rewrite (option_bind_ext_fun G (apply_updates usG)) by done.
    rewrite (option_bind_ext_fun F (apply_updates usF)) by done.
    rewrite <- !apply_updates_app. apply apply_updates_perm.
    apply Permutation_app_comm.
  - rewrite HG; simpl. destruct (F c) as [c'|]; simpl; [apply HG|done].
  - rewrite HF; simpl. destruct (G c) as [c'|]; simpl; [|done].
    by rewrite HF.
  - by rewrite HF, HG.
Qed.

Lemma bind_comm_under {S : Type} (F G K : S -> option S) c :
  F c ≫= G = G c ≫= F ->
  F c ≫= (fun c1 => G c1 ≫= K) = G c ≫= (fun c2 => F c2 ≫= K).
Proof.
  intros H.
  change (F c ≫= (mbind K ∘ G) = G c ≫= (mbind K ∘ F)).
  rewrite <- !option_bind_assoc. by rewrite H.
Qed.

Lemma returned_bind {A B : Type} (r : result A) (k : A -> result B) :
  returned (bind r k) = returned r ≫= (fun a => returned (k a)).
Proof. by destruct r. Qed.

(** ** The loops of the calculator *)

Import HazardCurve.

Lemma bind_Ok {A B : Type} (r : result A) (k : A -> result B) (b : B) :
  bind r k = Ok b -> exists a, r = Ok a /\ k a = Ok b.
Proof. destruct r; simpl; [eauto|done]. Qed.

Lemma foldM_app {A S : Type} (f : S -> A -> result S) l1 l2 s :
  foldM f (l1 ++ l2) s = (let! s' := foldM f l1 s in foldM f l2 s').
Proof.
  revert s. induction l1 as [|x l1 IH]; intros s; simpl; [done|].
  destruct (f s x); simpl; [apply IH|done].
Qed.

(** *** Expansion of an array over a site subset *)

Lemma expand_row s data n ph i :
  i < n ->
  rows (expand s data n ph) !! i =
  Some (match list_find (eq i) (indices s) with
        | Some (k, _) =>
            default (replicate (ncols data) ph) (rows data !! k)
        | None => replicate (ncols data) ph
        end).
Proof.
  intros Hi. unfold expand; simpl.
  rewrite list_lookup_fmap, lookup_seq_lt by done. done.
Qed.

Lemma shape_expand s data n ph : shape (expand s data n ph) = (n, ncols data).
Proof.
  unfold shape, nrows, expand; simpl. by rewrite length_fmap, length_seq.
Qed.

Lemma item_expand_absent s data n ph i j :
  i ∉ indices s -> i < n -> j < ncols data ->
  item (expand s data n ph) i j = ph.
Proof.
  intros Habs Hi Hj. unfold item. rewrite expand_row by done.
  assert (list_find (eq i) (indices s) = None) as ->.
  { apply list_find_None, Forall_forall. intros x Hx ->. done. }
  by rewrite lookup_replicate_2.
Qed.

Lemma item_expand_present s data n ph k i r j x :
  NoDup (indices s) -> indices s !! k = Some i -> i < n ->
  rows data !! k = Some r -> r !! j = Some x ->
  item (expand s data n ph) i j = x.
Proof.
  intros Hnd Hk Hi Hr Hx. unfold item. rewrite expand_row by done.
  assert (list_find (eq i) (indices s) = Some (k, i)) as ->.
  { apply list_find_Some. split; [done|]. split; [done|].
    intros k' y Hk' Hlt ->.
    pose proof (NoDup_lookup _ _ _ _ Hnd Hk Hk'). lia. }
  by rewrite Hr; simpl; rewrite Hx.
Qed.

Lemma in01_expand s data n : in01 data -> in01 (expand s data n 1).
Proof.
  intros Hd. unfold in01, expand; simpl. apply Forall_fmap, Forall_forall.
  intros i _; simpl.
  assert (Forall (fun x => (0 <= x <= 1)%R) (replicate (ncols data) 1%R))
    as Hblank by (apply Forall_replicate; lra).
  destruct (list_find (eq i) (indices s)) as [[k ?]|]; [|done].
  destruct (rows data !! k) as [r|] eqn:Hr; simpl; [|done].
  unfold in01 in Hd. rewrite Forall_lookup in Hd. by apply (Hd k).
Qed.

Lemma nrows_expand s data n ph : nrows (expand s data n ph) = n.
Proof. unfold nrows, expand; simpl. by rewrite length_fmap, length_seq. Qed.

Lemma bitem_expand_absent s data n ph a i j :
  broadcastable_to a (expand s data n ph) ->
  i ∉ indices s -> i < n -> j < ncols a ->
  bitem (expand s data n ph) i j = ph.
Proof.
  intros [_ Hcols] Habs Hi Hj. unfold bitem. rewrite nrows_expand.
  rewrite (bindex_in_range n i) by done.
  apply item_expand_absent; [done|done|].
  by apply (bindex_stretched _ (ncols a)).
Qed.

Lemma bitem_expand_present s data n ph k i r j x :
  NoDup (indices s) -> indices s !! k = Some i -> i < n ->
  rows data !! k = Some r -> r !! bindex (ncols data) j = Some x ->
  bitem (expand s data n ph) i j = x.
Proof.
  intros Hnd Hk Hi Hr Hx. unfold bitem. rewrite nrows_expand.
  rewrite (bindex_in_range n i) by done.
  by eapply item_expand_present.
Qed.

Section CalculatorFacts.

Context (sites : SiteCollection) (imts : gmap string (list R)).
Context (time_span : R) (gsims : gmap string GSIM) (truncation_level : R).
Context (source_site_filter : site_filter Source).
Context (rupture_site_filter : site_filter Rupture).
Context (cav_min : R).

Local Abbreviation tom := (PoissonTOM time_span).
Local Abbreviation total := (len sites).
Local Abbreviation the_fold_imt := (fold_imt truncation_level cav_min).
Local Abbreviation the_fold_rupture :=
  (fold_rupture imts gsims truncation_level cav_min).
Local Abbreviation the_fold_ruptures :=
  (fold_ruptures imts gsims truncation_level rupture_site_filter cav_min).
Local Abbreviation the_try_source :=
  (try_source imts gsims truncation_level rupture_site_filter cav_min).
Local Abbreviation the_fold_sources :=
  (fold_sources sites imts gsims truncation_level source_site_filter
     rupture_site_filter cav_min).
Local Abbreviation the_calculator :=
  (hazard_curves_poissonian sites imts time_span gsims truncation_level
     source_site_filter rupture_site_filter cav_min).
Local Abbreviation the_init_curves := (init_curves sites imts).

Lemma fold_sources_app tm n l1 l2 curves :
  the_fold_sources tm n (l1 ++ l2) curves =
  (let! curves' := the_fold_sources tm n l1 curves in
   the_fold_sources tm n l2 curves').
Proof.
  revert curves. induction l1 as [|s l1 IH]; intros curves; simpl; [done|].
  destruct (source_site_filter s sites) as [[ss|]|]; simpl; [|apply IH|done].
  destruct (the_try_source tm n s ss curves); simpl; [apply IH|done].
Qed.

Lemma fold_ruptures_app n l g s_sites curves :
  the_fold_ruptures n (gen_app l g) s_sites curves =
  (let! curves' := the_fold_ruptures n (gen_app l Stop) s_sites curves in
   the_fold_ruptures n g s_sites curves').
Proof.
  revert curves. induction l as [|r l IH]; intros curves; simpl; [done|].
  destruct (rupture_site_filter r s_sites) as [[rs|]|]; simpl;
    [|apply IH|done].
  destruct (the_fold_rupture n r rs curves); simpl; [apply IH|done].
Qed.

(** *** The final complement *)

Lemma foldM_complement (l : list (string * list R)) :
  forall curves : gmap string ndarray,
  NoDup l.*1 ->
  (forall k, k ∈ l.*1 -> is_Some (curves !! k)) ->
  exists curves',
    foldM complement_at l curves = Ok curves' /\
    forall k, curves' !! k =
      if decide (k ∈ l.*1)
      then arr_map (fun x => (1 - x)%R) <$> curves !! k
      else curves !! k.
Proof.
  induction l as [|[k0 lv] l IH]; intros curves Hnd Hin; simpl.
  - by exists curves.
  - apply NoDup_cons in Hnd as [Hk0 Hnd].
    destruct (Hin k0) as [a0 Ha0]; [set_solver|].
    unfold complement_at at 1; simpl. rewrite Ha0; simpl.
    destruct (IH (<[k0 := arr_map (fun x => (1 - x)%R) a0]> curves) Hnd)
      as (c' & Hc' & Hlk).
    { intros k Hk. destruct (decide (k = k0)) as [->|Hne].
      - rewrite lookup_insert_eq. eauto.
      - rewrite lookup_insert_ne by done. apply Hin. set_solver. }
    exists c'. split; [done|]. intros k. rewrite Hlk.
    destruct (decide (k = k0)) as [->|Hne].
    + rewrite decide_False by done. rewrite decide_True by set_solver.
      by rewrite lookup_insert_eq, Ha0.
    + rewrite lookup_insert_ne by done.
      destruct (decide (k ∈ l.*1)).
      * rewrite decide_True by set_solver. done.
      * rewrite decide_False by set_solver. done.
Qed.

Lemma complement_all (curves : gmap string ndarray) :
  (forall k, is_Some (curves !! k) <-> is_Some (imts !! k)) ->
  foldM complement_at (map_to_list imts) curves =
  Ok (arr_map (fun x => (1 - x)%R) <$> curves).
Proof.
  intros Hdom.
  assert (Hkeys : forall k, k ∈ (map_to_list imts).*1 <-> is_Some (imts !! k)).
  { intros k. rewrite list_elem_of_fmap. split.
    - intros ([k' v] & -> & Hin). apply elem_of_map_to_list in Hin. eauto.
    - intros [v Hv]. exists (k, v). split; [done|].
      by apply elem_of_map_to_list. }
  destruct (foldM_complement (map_to_list imts) curves) as (c' & Hc' & Hlk).
  { apply NoDup_fst_map_to_list. }
  { intros k Hk. apply Hdom, Hkeys, Hk. }
  rewrite Hc'. f_equal. apply map_eq; intros k.
  rewrite Hlk, lookup_fmap. case_decide as Hk; [done|].
  rewrite Hkeys, <- Hdom in Hk.
  destruct (curves !! k) eqn:E; [|done]. exfalso. apply Hk. eauto.
Qed.

Lemma init_curves_keys k :
  is_Some (the_init_curves !! k) <-> is_Some (imts !! k).
Proof. unfold init_curves. rewrite lookup_fmap. apply fmap_is_Some. Qed.

(** C3: with no source at all, the calculator returns, for every IMT of
    [imts], the all-zero array of shape (number of sites, number of levels),
    and nothing for any other key. *)
Theorem C3_no_sources_all_zero :
  the_calculator [] =
  Ok ((fun levels => zeros (len sites) (length levels)) <$> imts).
Proof.
  unfold hazard_curves_poissonian; simpl.
  rewrite complement_all by apply init_curves_keys.
  f_equal. unfold init_curves. rewrite <- map_fmap_compose.
  apply map_fmap_ext. intros k lv _; simpl. apply arr_map_ones_complement.
Qed.

(** *** Invariants of the loops *)

Section Invariant.

Variable Rel : gmap string ndarray -> gmap string ndarray -> Prop.
Hypothesis Rel_refl : forall c, Rel c c.
Hypothesis Rel_trans : forall c1 c2 c3, Rel c1 c2 -> Rel c2 c3 -> Rel c1 c3.

Lemma foldM_rel {A : Type} (f : gmap string ndarray -> A -> result _) l :
  (forall c x c', f c x = Ok c' -> Rel c c') ->
  forall c c', foldM f l c = Ok c' -> Rel c c'.
Proof.
  intros Hf. induction l as [|x l IH]; intros c c'; simpl.
  - intros [= ->]. apply Rel_refl.
  - intros H. apply bind_Ok in H as (c1 & H1 & H2). eauto.
Qed.

Variable good : Rupture -> Prop.
Variable n : nat.
Hypothesis Rel_step : forall r rs c c',
  good r -> the_fold_rupture n r rs c = Ok c' -> Rel c c'.

Lemma fold_ruptures_rel g s_sites :
  (forall r, yields r g -> good r) ->
  forall c c', the_fold_ruptures n g s_sites c = Ok c' -> Rel c c'.
Proof.
  induction g as [|r rest IH|e]; intros Hgood c c'; simpl.
  - intros [= ->]. apply Rel_refl.
  - intros H. apply bind_Ok in H as ([rs|] & _ & H).
    + apply bind_Ok in H as (c1 & H1 & H2).
      eapply Rel_trans; [eapply Rel_step; [|exact H1]|]; simpl in *; eauto.
    + apply IH; simpl in *; eauto.
  - done.
Qed.

Lemma fold_sources_rel tm sources :
  (forall s r, s ∈ sources -> yields r (iter_ruptures s tm) -> good r) ->
  forall c c', the_fold_sources tm n sources c = Ok c' -> Rel c c'.
Proof.
  induction sources as [|s rest IH]; intros Hgood c c'; simpl.
  - intros [= ->]. apply Rel_refl.
  - intros H. apply bind_Ok in H as ([ss|] & _ & H).
    + apply bind_Ok in H as (c1 & H1 & H2).
      eapply Rel_trans; [|eapply IH; [|exact H2]].
      * unfold try_source in H1.
        destruct (the_fold_ruptures n (iter_ruptures s tm) ss c)
          as [c1'|] eqn:E; [|done].
        injection H1 as <-. eapply fold_ruptures_rel; [|exact E].
        intros r Hr. eapply Hgood; [|exact Hr]. apply list_elem_of_here.
      * intros s' r Hs'. apply Hgood. by apply list_elem_of_further.
    + eapply IH; [|exact H]. intros s' r Hs'. apply Hgood.
      by apply list_elem_of_further.
Qed.

End Invariant.

(** *** One fold step *)

Lemma fold_rupture_Ok n rupture r_sites curves curves' :
  the_fold_rupture n rupture r_sites curves = Ok curves' ->
  exists prob gsim ctxs,
    get_probability_one_or_more_occurrences rupture = Ok prob /\
    gsims !! tectonic_region_type rupture = Some gsim /\
    make_contexts gsim r_sites rupture = Ok ctxs /\
    foldM (the_fold_imt gsim ctxs r_sites prob n) (map_to_list imts) curves
      = Ok curves'.
Proof.
  unfold fold_rupture. intros H.
  apply bind_Ok in H as (prob & Hprob & H).
  apply bind_Ok in H as (gsim & Hgsim & H).
  apply bind_Ok in H as (ctxs & Hctxs & H).
  exists prob, gsim, ctxs. repeat split; try done.
  unfold gsims_getitem in Hgsim.
  destruct (gsims !! tectonic_region_type rupture); by simplify_eq.
Qed.

Lemma fold_imt_Ok gsim ctxs r_sites prob n curves kv curves' :
  the_fold_imt gsim ctxs r_sites prob n curves kv = Ok curves' ->
  exists poes acc acc',
    get_poes_cav gsim ctxs kv.1 kv.2 truncation_level cav_min = Ok poes /\
    curves !! kv.1 = Some acc /\
    arr_imul acc (expand r_sites (arr_map (npow (1 - prob)) poes) n 1)
      = Ok acc' /\
    curves' = <[kv.1 := acc']> curves.
Proof.
  unfold fold_imt, imul_at. intros H.
  apply bind_Ok in H as (poes & Hpoes & H).
  destruct (curves !! kv.1) as [acc|] eqn:Hacc; [|done].
  apply bind_Ok in H as (acc' & Hmul & [= <-]).
  by exists poes, acc, acc'.
Qed.

(** What the loop over the IMTs does to every accumulator. *)
Lemma foldM_fold_imt_spec gsim ctxs r_sites prob n
    (l : list (string * list R)) :
  forall curves curves' : gmap string ndarray,
  NoDup l.*1 ->
  foldM (the_fold_imt gsim ctxs r_sites prob n) l curves = Ok curves' ->
  (forall k, k ∉ l.*1 -> curves' !! k = curves !! k) /\
  (forall k lv, (k, lv) ∈ l ->
     exists poes acc acc',
       get_poes_cav gsim ctxs k lv truncation_level cav_min = Ok poes /\
       curves !! k = Some acc /\
       arr_imul acc (expand r_sites (arr_map (npow (1 - prob)) poes) n 1)
         = Ok acc' /\
       curves' !! k = Some acc').
Proof.
  induction l as [|[k0 lv0] l IH]; intros curves curves' Hnd; simpl.
  - intros [= ->]. split; [done|]. intros k lv Hin. by apply elem_of_nil in Hin.
  - intros H. apply bind_Ok in H as (c1 & H1 & H2).
    apply NoDup_cons in Hnd as [Hk0 Hnd].
    apply fold_imt_Ok in H1 as (poes & acc & acc' & Hpoes & Hacc & Hmul & ->).
    simpl in *. destruct (IH _ _ Hnd H2) as [IH1 IH2]. split.
    + intros k Hk. apply not_elem_of_cons in Hk as [Hne Hk].
      rewrite IH1 by done. by rewrite lookup_insert_ne.
    + intros k lv Hin. apply elem_of_cons in Hin as [[= -> ->]|Hin].
      * exists poes, acc, acc'. repeat split; try done.
        rewrite IH1 by done. by rewrite lookup_insert_eq.
      * destruct (IH2 k lv Hin) as (p & a & a' & Hp & Ha & Hm & Hc').
        assert (k <> k0) as Hne.
        { intros ->. apply Hk0. apply list_elem_of_fmap.
          by exists (k0, lv). }
        rewrite lookup_insert_ne in Ha by done. by exists p, a, a'.
Qed.


(** *** The accumulators stay in the unit interval *)

Lemma fst_map_to_list_None (k : string) :
  imts !! k = None -> k ∉ (map_to_list imts).*1.
Proof.
  intros Hnone Hin. apply list_elem_of_fmap in Hin as ([k' lv] & -> & Hin).
  apply elem_of_map_to_list in Hin. simpl in *. congruence.
Qed.

Lemma fold_rupture_same_keys n rupture r_sites c c' :
  the_fold_rupture n rupture r_sites c = Ok c' -> same_keys c c'.
Proof.
  intros H. apply fold_rupture_Ok in H as (prob & gsim & ctxs & _ & _ & _ & H).
  apply foldM_fold_imt_spec in H as [H1 H2]; [|apply NoDup_fst_map_to_list].
  intros k. destruct (imts !! k) as [lv|] eqn:Hk.
  - apply elem_of_map_to_list in Hk.
    destruct (H2 k lv Hk) as (_ & a & a' & _ & -> & _ & ->).
    split; eauto.
  - by rewrite H1 by by apply fst_map_to_list_None.
Qed.

Lemma fold_sources_same_keys tm n sources c c' :
  the_fold_sources tm n sources c = Ok c' -> same_keys c c'.
Proof.
  apply (fold_sources_rel same_keys) with (good := fun _ => True).
  - by intros c0 k.
  - intros c1 c2 c3 H12 H23 k. etrans; [apply H23|apply H12].
  - intros r rs c0 c0' _. apply fold_rupture_same_keys.
  - done.
Qed.

Section UnitInterval.

Hypothesis poes_in01 : forall trt gsim ctxs imt levels poes,
  gsims !! trt = Some gsim ->
  get_poes_cav gsim ctxs imt levels truncation_level cav_min = Ok poes ->
  in01 poes.

Lemma fold_rupture_in01 n rupture r_sites c c' :
  prob_in01 rupture -> curves_in01 c ->
  the_fold_rupture n rupture r_sites c = Ok c' ->
  curves_in01 c' /\ curves_le c' c.
Proof.
  intros Hprob Hc H.
  apply fold_rupture_Ok in H as (prob & gsim & ctxs & Hp & Hg & _ & H).
  apply Hprob in Hp.
  apply foldM_fold_imt_spec in H as [H1 H2]; [|apply NoDup_fst_map_to_list].
  assert (forall poes, in01 poes ->
            in01 (expand r_sites (arr_map (npow (1 - prob)) poes) n 1))
    as Hfactor.
  { intros poes Hpoes. apply in01_expand, in01_arr_map; [|done].
    intros x Hx. apply npow_unit_interval; lra. }
  split.
  - intros k a' Ha'. destruct (imts !! k) as [lv|] eqn:Hk.
    + apply elem_of_map_to_list in Hk.
      destruct (H2 k lv Hk) as (poes & a & a'' & Hpoes & Ha & Hmul & Ha'').
      simplify_eq. eapply in01_imul; [by eapply Hc| |exact Hmul].
      eapply Hfactor, poes_in01; eauto.
    + rewrite H1 in Ha' by by apply fst_map_to_list_None. by eapply Hc.
  - intros k a a' Ha Ha' i j. destruct (imts !! k) as [lv|] eqn:Hk.
    + apply elem_of_map_to_list in Hk.
      destruct (H2 k lv Hk) as (poes & a0 & a0' & Hpoes & Ha0 & Hmul & Ha0').
      simplify_eq. rewrite (item_imul _ _ _ i j Hmul).
      pose proof (item_in01 a i j (Hc _ _ Ha)).
      pose proof (bitem_in01 _ i j
                    (Hfactor poes (poes_in01 _ _ _ _ _ _ Hg Hpoes))).
      nra.
    + rewrite H1 in Ha' by by apply fst_map_to_list_None.
      simplify_eq. lra.
Qed.

Lemma init_curves_in01 : curves_in01 the_init_curves.
Proof.
  intros k a. unfold init_curves. rewrite lookup_fmap.
  destruct (imts !! k); simpl; [|done]. intros [= <-]. apply in01_ones.
Qed.

(** C4: if the models return exceedance probabilities in [[0, 1]] and the
    ruptures of the sources have occurrence probabilities in [[0, 1]], then
    every accumulator starts as the array of ones; folding a rupture of the
    input into accumulators with values in [[0, 1]] gives accumulators with
    values in [[0, 1]] that are element-wise not above the previous ones;
    and every value of every returned curve lies in [[0, 1]]. *)
Theorem C4_accumulators_in_unit_interval (sources : list Source) :
  (forall source rupture, source ∈ sources ->
     yields rupture (iter_ruptures source tom) -> prob_in01 rupture) ->
  (forall imt levels, imts !! imt = Some levels ->
     the_init_curves !! imt = Some (ones total (length levels))) /\
  (forall source rupture r_sites curves curves',
     source ∈ sources -> yields rupture (iter_ruptures source tom) ->
     curves_in01 curves ->
     the_fold_rupture total rupture r_sites curves = Ok curves' ->
     curves_in01 curves' /\ curves_le curves' curves) /\
  (forall result, the_calculator sources = Ok result -> curves_in01 result).
Proof.
  intros Hprobs. split; [|split].
  - intros imt levels Himt. unfold init_curves.
    by rewrite lookup_fmap, Himt.
  - intros source rupture r_sites c c' Hs Hr Hc H.
    eapply fold_rupture_in01; eauto.
  - intros result H. unfold hazard_curves_poissonian in H.
    apply bind_Ok in H as (c & Hfold & Hfinal).
    assert (curves_in01 c) as Hc.
    { apply (fold_sources_rel (fun c c' => curves_in01 c -> curves_in01 c'))
        with (good := prob_in01) (n := total) (tm := tom) (sources := sources)
             (c := the_init_curves); eauto using init_curves_in01.
      intros r rs c0 c0' Hgood H0 Hc0.
      by destruct (fold_rupture_in01 _ _ _ _ _ Hgood Hc0 H0). }
    rewrite complement_all in Hfinal.
    + injection Hfinal as <-. intros k a. rewrite lookup_fmap.
      destruct (c !! k) as [a0|] eqn:Ha0; simpl; [|done]. intros [= <-].
      apply in01_arr_map; [intros x; lra|]. by eapply Hc.
    + intros k. rewrite <- init_curves_keys.
      by apply (fold_sources_same_keys _ _ _ _ _ Hfold).
Qed.

End UnitInterval.

(** *** The order of the sources *)

Lemma fold_imt_product gsim ctxs r_sites prob n kv :
  product_step
    (fun c => returned (the_fold_imt gsim ctxs r_sites prob n c kv)).
Proof.
  unfold fold_imt.
  destruct (get_poes_cav gsim ctxs kv.1 kv.2 truncation_level cav_min)
    as [poes|e]; simpl.
  - apply (product_step_update
             (kv.1, expand r_sites (arr_map (npow (1 - prob)) poes) n 1)).
  - apply product_step_fail.
Qed.

Lemma foldM_product {A : Type}
    (f : gmap string ndarray -> A -> result (gmap string ndarray)) l :
  (forall x, product_step (fun c => returned (f c x))) ->
  product_step (fun c => returned (foldM f l c)).
Proof.
  intros Hf. induction l as [|x l IH]; simpl.
  - apply product_step_ret.
  - eapply product_step_ext; [intros c; apply returned_bind|].
    apply (product_step_bind (fun c => returned (f c x))
             (fun c => returned (foldM f l c))); auto.
Qed.

Lemma fold_rupture_product n rupture r_sites :
  product_step (fun c => returned (the_fold_rupture n rupture r_sites c)).
Proof.
  unfold fold_rupture.
  destruct (get_probability_one_or_more_occurrences rupture) as [prob|];
    simpl; [|apply product_step_fail].
  destruct (gsims_getitem gsims (tectonic_region_type rupture)) as [gsim|];
    simpl; [|apply product_step_fail].
  destruct (make_contexts gsim r_sites rupture) as [ctxs|];
    simpl; [|apply product_step_fail].
  apply foldM_product. intros kv. apply fold_imt_product.
Qed.

Lemma fold_ruptures_product n g s_sites :
  product_step (fun c => returned (the_fold_ruptures n g s_sites c)).
Proof.
  induction g as [|r rest IH|e]; simpl.
  - apply product_step_ret.
  - destruct (rupture_site_filter r s_sites) as [[rs|]|]; simpl.
    + eapply product_step_ext; [intros c; apply returned_bind|].
      apply (product_step_bind
               (fun c => returned (the_fold_rupture n r rs c))
               (fun c => returned (the_fold_ruptures n rest s_sites c)));
        [apply fold_rupture_product|apply IH].
    + apply IH.
    + apply product_step_fail.
  - apply product_step_fail.
Qed.

Lemma one_source_product tm n source :
  product_step (fun c => returned (the_fold_sources tm n [source] c)).
Proof.
  simpl. destruct (source_site_filter source sites) as [[ss|]|]; simpl.
  - eapply product_step_ext;
      [|apply (fold_ruptures_product n (iter_ruptures source tm) ss)].
    intros c. unfold try_source.
    by destruct (the_fold_ruptures n (iter_ruptures source tm) ss c).
  - apply product_step_ret.
  - apply product_step_fail.
Qed.

Lemma fold_sources_cons tm n source rest c :
  returned (the_fold_sources tm n (source :: rest) c) =
  returned (the_fold_sources tm n [source] c)
    ≫= (fun c' => returned (the_fold_sources tm n rest c')).
Proof.
  change (source :: rest) with ([source] ++ rest).
  by rewrite fold_sources_app, returned_bind.
Qed.

Lemma fold_sources_perm tm n sources sources' :
  sources ≡ₚ sources' ->
  forall c, returned (the_fold_sources tm n sources c) =
            returned (the_fold_sources tm n sources' c).
Proof.
  induction 1 as [|s l l' _ IH|s1 s2 l|l1 l2 l3 _ IH1 _ IH2]; intros c.
  - done.
  - rewrite (fold_sources_cons tm n s l), (fold_sources_cons tm n s l').
    by apply option_bind_ext_fun.
  - rewrite (fold_sources_cons tm n s2 (s1 :: l)).
    rewrite (fold_sources_cons tm n s1 (s2 :: l)).
    etrans; [apply option_bind_ext_fun; intros c';
             apply (fold_sources_cons tm n s1 l)|].
    etrans; [|symmetry; apply option_bind_ext_fun; intros c';
              apply (fold_sources_cons tm n s2 l)].
    apply (bind_comm_under
             (fun c' => returned (the_fold_sources tm n [s2] c'))
             (fun c' => returned (the_fold_sources tm n [s1] c'))
             (fun c' => returned (the_fold_sources tm n l c')) c).
    apply (product_step_comm
             (fun c' => returned (the_fold_sources tm n [s2] c'))
             (fun c' => returned (the_fold_sources tm n [s1] c')));
      apply one_source_product.
  - by rewrite IH1.
Qed.

(** C5: two lists of sources that are permutations of each other give the
    same outcome as far as the caller can use it: either both calls raise,
    or both return, and then they return the same curves (the products of
    real numbers do not depend on their order). *)
Theorem C5_source_order_is_irrelevant (sources sources' : list Source) :
  sources ≡ₚ sources' ->
  returned (the_calculator sources) = returned (the_calculator sources').
Proof.
  intros Hperm. unfold hazard_curves_poissonian.
  rewrite !returned_bind.
  by rewrite (fold_sources_perm tom total sources sources' Hperm).
Qed.

(** *** Errors *)

Lemma calculator_raises_at
    tm (sources_before : list Source) source sources_after acc e :
  the_fold_sources tm total sources_before the_init_curves = Ok acc ->
  (let! kept := source_site_filter source sites in
   match kept with
   | None => the_fold_sources tm total sources_after acc
   | Some s_sites =>
       let! curves' := the_try_source tm total source s_sites acc in
       the_fold_sources tm total sources_after curves'
   end) = Raise e ->
  tm = tom ->
  the_calculator (sources_before ++ source :: sources_after) = Raise e.
Proof.
  intros Hbefore Hhere ->. unfold hazard_curves_poissonian.
  rewrite fold_sources_app, Hbefore. simpl. by rewrite Hhere.
Qed.

(** C6: when the processing of a source (the enumeration of its ruptures
    and everything done for each of them inside the [try]) raises [err],
    the calculator raises one [RuntimeError] whose message is built from the
    identifier of that source and the message of [err]; no curve is
    returned. *)
Theorem C6_source_error_is_wrapped
    (sources_before : list Source) source sources_after acc s_sites err :
  the_fold_sources tom total sources_before the_init_curves = Ok acc ->
  source_site_filter source sites = Ok (Some s_sites) ->
  the_fold_ruptures total (iter_ruptures source tom) s_sites acc = Raise err ->
  the_calculator (sources_before ++ source :: sources_after) =
    Raise (RuntimeError
             ("An error occurred with source id=" +:+ source_id source +:+
              ". Error: " +:+ message err))
  /\ returned (the_calculator (sources_before ++ source :: sources_after))
     = None.
Proof.
  intros Hbefore Hkeep Herr.
  assert (the_calculator (sources_before ++ source :: sources_after) =
          Raise (RuntimeError (source_error_msg source err))) as Hcalc.
  { eapply calculator_raises_at; [done| |done].
    rewrite Hkeep; simpl. unfold try_source. by rewrite Herr. }
  split; [exact Hcalc|]. by rewrite Hcalc.
Qed.

Lemma fold_rupture_missing_trt n rupture r_sites curves :
  gsims !! tectonic_region_type rupture = None ->
  exists e, the_fold_rupture n rupture r_sites curves = Raise e.
Proof.
  intros Hnone. unfold fold_rupture, gsims_getitem. rewrite Hnone.
  destruct (get_probability_one_or_more_occurrences rupture); simpl; eauto.
Qed.

Lemma fold_ruptures_missing_trt n rupture r_sites s_sites g :
  yields rupture g ->
  rupture_site_filter rupture s_sites = Ok (Some r_sites) ->
  gsims !! tectonic_region_type rupture = None ->
  forall curves, exists e, the_fold_ruptures n g s_sites curves = Raise e.
Proof.
  intros Hy Hkeep Hnone.
  induction g as [|r0 rest IH|e0]; intros curves; simpl in *; [done| |done].
  destruct Hy as [<-|Hy].
  - rewrite Hkeep; simpl.
    destruct (fold_rupture_missing_trt n rupture r_sites curves Hnone)
      as [e ->]. simpl; eauto.
  - destruct (rupture_site_filter r0 s_sites) as [[rs|]|]; simpl; eauto.
    destruct (the_fold_rupture n r0 rs curves); simpl; eauto.
Qed.

Lemma fold_sources_missing_trt n rupture r_sites source s_sites sources :
  source ∈ sources ->
  source_site_filter source sites = Ok (Some s_sites) ->
  yields rupture (iter_ruptures source tom) ->
  rupture_site_filter rupture s_sites = Ok (Some r_sites) ->
  gsims !! tectonic_region_type rupture = None ->
  forall curves, exists e, the_fold_sources tom n sources curves = Raise e.
Proof.
  intros Hin Hkeep Hy Hrkeep Hnone.
  induction sources as [|s0 rest IH]; intros curves; simpl.
  { by apply elem_of_nil in Hin. }
  apply elem_of_cons in Hin as [<-|Hin].
  - rewrite Hkeep; simpl. unfold try_source.
    destruct (fold_ruptures_missing_trt n rupture r_sites s_sites _
                Hy Hrkeep Hnone curves) as [e ->]. simpl; eauto.
  - destruct (source_site_filter s0 sites) as [[ss|]|]; simpl; eauto.
    destruct (the_try_source tom n s0 ss curves); simpl; eauto.
Qed.

(** C7 (amended): an input with a surviving rupture whose tectonic region
    type has no entry in [gsims] makes the calculator raise, so no curve is
    returned; and when the look-up for that rupture is reached (everything
    before it went well), what is raised is the [RuntimeError] of the
    [except] clause, its message carrying the identifier of the source and
    the region type (the message of the [KeyError]). *)
Theorem C7_missing_gsim_raises_runtime_error
    sources source rupture s_sites r_sites :
  source ∈ sources ->
  source_site_filter source sites = Ok (Some s_sites) ->
  yields rupture (iter_ruptures source tom) ->
  rupture_site_filter rupture s_sites = Ok (Some r_sites) ->
  gsims !! tectonic_region_type rupture = None ->
  (exists e, the_calculator sources = Raise e) /\
  (forall (sources_before sources_after : list Source) acc
          ruptures_before ruptures_after acc' prob,
     sources = sources_before ++ source :: sources_after ->
     the_fold_sources tom total sources_before the_init_curves = Ok acc ->
     iter_ruptures source tom =
       gen_app ruptures_before (Yield rupture ruptures_after) ->
     the_fold_ruptures total (gen_app ruptures_before Stop) s_sites acc
       = Ok acc' ->
     get_probability_one_or_more_occurrences rupture = Ok prob ->
     the_calculator sources =
       Raise (RuntimeError
                ("An error occurred with source id=" +:+ source_id source +:+
                 ". Error: " +:+ tectonic_region_type rupture))).
Proof.
  intros Hin Hkeep Hy Hrkeep Hnone. split.
  - destruct (fold_sources_missing_trt total rupture r_sites source s_sites
                sources Hin Hkeep Hy Hrkeep Hnone the_init_curves) as [e He].
    exists e. unfold hazard_curves_poissonian. by rewrite He.
  - intros sb sa acc rb ra acc' prob -> Hbefore Hgen Hrb Hprob.
    eapply calculator_raises_at; [done| |done].
    rewrite Hkeep; simpl. unfold try_source.
    rewrite Hgen, fold_ruptures_app, Hrb; simpl.
    rewrite Hrkeep; simpl. unfold fold_rupture, gsims_getitem.
    by rewrite Hprob, Hnone.
Qed.

(** C8 (amended): an error raised by the source-site filter reaches the
    caller unchanged; an error raised by the rupture-site filter is raised
    inside the [try], so the caller gets the [RuntimeError] of the [except]
    clause, which carries the identifier of the source and the message of
    the filter's error.  In both cases no curve is returned. *)
Theorem C8_filter_errors
    (sources_before : list Source) source sources_after acc :
  the_fold_sources tom total sources_before the_init_curves = Ok acc ->
  (forall e,
     source_site_filter source sites = Raise e ->
     the_calculator (sources_before ++ source :: sources_after) = Raise e) /\
  (forall s_sites ruptures_before rupture ruptures_after acc' e,
     source_site_filter source sites = Ok (Some s_sites) ->
     iter_ruptures source tom =
       gen_app ruptures_before (Yield rupture ruptures_after) ->
     the_fold_ruptures total (gen_app ruptures_before Stop) s_sites acc
       = Ok acc' ->
     rupture_site_filter rupture s_sites = Raise e ->
     the_calculator (sources_before ++ source :: sources_after) =
       Raise (RuntimeError
                ("An error occurred with source id=" +:+ source_id source +:+
                 ". Error: " +:+ message e))).
Proof.
  intros Hbefore. split.
  - intros e He. eapply calculator_raises_at; [done| |done]. by rewrite He.
  - intros s_sites rb r ra acc' e Hkeep Hgen Hrb He.
    eapply calculator_raises_at; [done| |done].
    rewrite Hkeep; simpl. unfold try_source.
    rewrite Hgen, fold_ruptures_app, Hrb; simpl. by rewrite He.
Qed.

End CalculatorFacts.

(** ** The error theorems on concrete inputs *)

Import Scenarios.

Lemma C6_witness :
  hazard_curves_poissonian one_site pga_one_level 50 (crust_only 0.5) 3
    source_site_noop_filter rupture_site_noop_filter 0
    ([source_a] ++ volcanic_source :: [source_b]) =
    Raise (RuntimeError "An error occurred with source id=v. Error: Volcanic")
  /\ returned
       (hazard_curves_poissonian one_site pga_one_level 50 (crust_only 0.5) 3
          source_site_noop_filter rupture_site_noop_filter 0
          ([source_a] ++ volcanic_source :: [source_b])) = None.
Proof.
  eapply (C6_source_error_is_wrapped one_site pga_one_level 50
            (crust_only 0.5) 3 source_site_noop_filter
            rupture_site_noop_filter 0 [source_a] volcanic_source [source_b]
            _ one_site (KeyError "Volcanic")).
  - reflexivity.
  - reflexivity.
  - reflexivity.
Defined.

(** The claim of C7 as the specification words it fails on this input: the
    region type of the surviving rupture has no model, and what is raised is
    a [RuntimeError]. *)
Lemma C7_counterexample :
  volcanic_source ∈ [volcanic_source] /\
  yields volcanic_rupture (iter_ruptures volcanic_source (PoissonTOM 50)) /\
  crust_only 0.5 !! tectonic_region_type volcanic_rupture = None /\
  ~ (exists e,
       hazard_curves_poissonian one_site pga_one_level 50 (crust_only 0.5) 3
         source_site_noop_filter rupture_site_noop_filter 0
         [volcanic_source] = Raise e /\
       is_configuration_error e).
Proof.
  split; [apply list_elem_of_here|]. split; [by left|]. split; [reflexivity|].
  intros (e & He & Hconf).
  assert (Hrun :
    hazard_curves_poissonian one_site pga_one_level 50 (crust_only 0.5) 3
      source_site_noop_filter rupture_site_noop_filter 0 [volcanic_source] =
    Raise (RuntimeError "An error occurred with source id=v. Error: Volcanic"))
    by reflexivity.
  rewrite Hrun in He. injection He as <-.
  destruct Hconf as [H|H]; discriminate H.
Qed.

Lemma C7_witness :
  (exists e,
     hazard_curves_poissonian one_site pga_one_level 50 (crust_only 0.5) 3
       source_site_noop_filter rupture_site_noop_filter 0
       [source_a; volcanic_source] = Raise e) /\
  hazard_curves_poissonian one_site pga_one_level 50 (crust_only 0.5) 3
    source_site_noop_filter rupture_site_noop_filter 0
    [source_a; volcanic_source] =
    Raise (RuntimeError
             ("An error occurred with source id=" +:+
              source_id volcanic_source +:+ ". Error: " +:+
              tectonic_region_type volcanic_rupture)).
Proof.
  assert (volcanic_source ∈ [source_a; volcanic_source]) as Hin
    by apply list_elem_of_further, list_elem_of_here.
  assert (yields volcanic_rupture
            (iter_ruptures volcanic_source (PoissonTOM 50))) as Hy
    by (left; reflexivity).
  destruct (C7_missing_gsim_raises_runtime_error one_site pga_one_level 50
              (crust_only 0.5) 3 source_site_noop_filter
              rupture_site_noop_filter 0 [source_a; volcanic_source]
              volcanic_source volcanic_rupture one_site one_site
              Hin eq_refl Hy eq_refl eq_refl) as [Hraises Hkind].
  split; [exact Hraises|].
  eapply (Hkind [source_a] [] _ [] Stop _ 0.1%R); reflexivity.
Defined.

(** The claim of C8 as the specification words it fails on this input: the
    rupture-site filter raises a [FilterError], and the caller gets a
    [RuntimeError] instead. *)
Lemma C8_counterexample :
  failing_rupture_filter rupture_01 one_site = Raise filter_error /\
  hazard_curves_poissonian one_site pga_one_level 50 (crust_only 0.5) 3
    source_site_noop_filter failing_rupture_filter 0 [source_a] =
    Raise (RuntimeError
             "An error occurred with source id=a. Error: malformed geometry") /\
  hazard_curves_poissonian one_site pga_one_level 50 (crust_only 0.5) 3
    source_site_noop_filter failing_rupture_filter 0 [source_a] <>
    Raise filter_error.
Proof.
  split; [reflexivity|]. split; [reflexivity|].
  intros H. discriminate H.
Qed.

Lemma C8_witness :
  hazard_curves_poissonian one_site pga_one_level 50 (crust_only 0.5) 3
    failing_source_filter rupture_site_noop_filter 0
    ([] ++ source_a :: [source_b]) = Raise filter_error /\
  hazard_curves_poissonian one_site pga_one_level 50 (crust_only 0.5) 3
    source_site_noop_filter failing_rupture_filter 0
    ([] ++ source_a :: [source_b]) =
    Raise (RuntimeError
             ("An error occurred with source id=" +:+ source_id source_a +:+
              ". Error: " +:+ message filter_error)).
Proof.
  split.
  - apply (proj1 (C8_filter_errors one_site pga_one_level 50 (crust_only 0.5)
                   3 failing_source_filter rupture_site_noop_filter 0
                   [] source_a [source_b]
                   (init_curves one_site pga_one_level) eq_refl)).
    reflexivity.
  - apply (proj2 (C8_filter_errors one_site pga_one_level 50 (crust_only 0.5)
                   3 source_site_noop_filter failing_rupture_filter 0
                   [] source_a [source_b]
                   (init_curves one_site pga_one_level) eq_refl)
             one_site [] rupture_01 Stop
             (init_curves one_site pga_one_level) filter_error);
      reflexivity.
Defined.


Lemma stub_poes_in01 poe :
  (0 <= poe <= 1)%R ->
  forall trt gsim ctxs (imt : string) levels poes,
  crust_only poe !! trt = Some gsim ->
  get_poes_cav gsim ctxs imt levels 3 0 = Ok poes ->
  in01 poes.
Proof.
  intros Hpoe trt gsim ctxs imt levels poes Hg Hp.
  unfold crust_only in Hg.
  apply lookup_singleton_Some in Hg as [_ <-]. simpl in Hp.
  injection Hp as <-. unfold in01; simpl.
  by apply Forall_replicate, Forall_replicate.
Qed.

Lemma C4_witness :
  ((forall imt levels, pga_one_level !! imt = Some levels ->
      init_curves one_site pga_one_level !! imt =
      Some (ones (len one_site) (length levels))) /\
   (forall source rupture r_sites curves curves',
      source ∈ [source_a; source_b] ->
      yields rupture (iter_ruptures source (PoissonTOM 50)) ->
      curves_in01 curves ->
      fold_rupture pga_one_level (crust_only 0.5) 3 0 (len one_site)
        rupture r_sites curves = Ok curves' ->
      curves_in01 curves' /\ curves_le curves' curves) /\
   (forall result,
      hazard_curves_poissonian one_site pga_one_level 50 (crust_only 0.5) 3
        source_site_noop_filter rupture_site_noop_filter 0
        [source_a; source_b] = Ok result ->
      curves_in01 result)) /\
  (exists result,
     hazard_curves_poissonian one_site pga_one_level 50 (crust_only 0.5) 3
       source_site_noop_filter rupture_site_noop_filter 0
       [source_a; source_b] = Ok result /\
     curves_in01 result).
Proof.
  assert (forall source rupture, source ∈ [source_a; source_b] ->
            yields rupture (iter_ruptures source (PoissonTOM 50)) ->
            prob_in01 rupture) as Hprobs.
  { intros source rupture Hs Hy prob Hprob.
    apply elem_of_cons in Hs as [->|Hs].
    - destruct Hy as [->|[]]. injection Hprob as <-. lra.
    - apply list_elem_of_singleton in Hs as ->.
      destruct Hy as [->|[]]. injection Hprob as <-. lra. }
  assert (0 <= 0.5 <= 1)%R as Hhalf by lra.
  pose proof (C4_accumulators_in_unit_interval one_site pga_one_level 50
                (crust_only 0.5) 3 source_site_noop_filter
                rupture_site_noop_filter 0 (stub_poes_in01 0.5 Hhalf)
                [source_a; source_b] Hprobs) as Hall.
  split; [exact Hall|].
  eexists. split; [reflexivity|]. apply Hall. reflexivity.
Defined.

Lemma C5_witness :
  returned
    (hazard_curves_poissonian one_site pga_one_level 50 (crust_only 0.5) 3
       source_site_noop_filter rupture_site_noop_filter 0
       [source_a; source_b]) =
  returned
    (hazard_curves_poissonian one_site pga_one_level 50 (crust_only 0.5) 3
       source_site_noop_filter rupture_site_noop_filter 0
       [source_b; source_a]).
Proof.
  apply C5_source_order_is_irrelevant. apply perm_swap.
Defined.

(** A factor with one column is broadcast over the two levels of the
    accumulator, as numpy does: the call returns. *)
Example one_column_factor_is_broadcast :
  hazard_curves_poissonian one_site pga_two_levels 50
    {[crust := one_column_gsim 0.5]} 3 source_site_noop_filter
    rupture_site_noop_filter 0 [source_a] =
  Ok {["PGA" := mkArr 2 [[(1 - 1 * npow (1 - 0.1) 0.5)%R;
                          (1 - 1 * npow (1 - 0.1) 0.5)%R]]]}.
Proof. vm_compute. reflexivity. Qed.

(** ** The single-rupture scenario *)

Lemma sqrt_09_bounds : (0.94868 < sqrt 0.9 < 0.94869)%R.
Proof.
  split.
  - apply Rle_lt_trans with (sqrt (0.94868 * 0.94868)).
    + rewrite sqrt_square; lra.
    + apply sqrt_lt_1; lra.
  - apply Rlt_le_trans with (sqrt (0.94869 * 0.94869)).
    + apply sqrt_lt_1; lra.
    + rewrite sqrt_square; lra.
Qed.

Lemma npow_09_half : npow (1 - 0.1) 0.5 = sqrt 0.9.
Proof.
  unfold npow. destruct (Req_dec_T (1 - 0.1) 0) as [H|_]; [lra|].
  replace 0.5%R with (/ 2)%R by lra.
  replace (1 - 0.1)%R with 0.9%R by lra.
  apply Rpower_sqrt. lra.
Qed.

(** C2: one source that yields a single rupture of occurrence probability
    0.1, one site, one IMT with one level, and a model that answers the
    exceedance probability 0.5: the calculator returns, for that IMT, the
    1 x 1 array holding [1 - (1 - 0.1) ** 0.5], which is 0.05132 to five
    decimal places. *)
Theorem C2_single_rupture_scenario
    (time_span truncation_level cav_min level : R) (gsims : gmap string GSIM)
    (source : Source) (rupture : Rupture) (gsim : GSIM)
    (ctxs : Context * Context * Context) (imt : string) :
  iter_ruptures source (PoissonTOM time_span) = Yield rupture Stop ->
  get_probability_one_or_more_occurrences rupture = Ok 0.1%R ->
  gsims !! tectonic_region_type rupture = Some gsim ->
  make_contexts gsim (complete 1) rupture = Ok ctxs ->
  get_poes_cav gsim ctxs imt [level] truncation_level cav_min
    = Ok (mkArr 1 [[0.5%R]]) ->
  hazard_curves_poissonian (complete 1) {[imt := [level]]} time_span gsims
    truncation_level source_site_noop_filter rupture_site_noop_filter
    cav_min [source]
    = Ok {[imt := mkArr 1 [[(1 - npow (1 - 0.1) 0.5)%R]]]}
  /\ (Rabs ((1 - npow (1 - 0.1) 0.5) - 0.05132) < 0.00001)%R.
Proof.
  intros Hgen Hprob Hgsim Hctxs Hpoes. split.
  - unfold hazard_curves_poissonian, init_curves.
    rewrite map_fmap_singleton. simpl.
    unfold try_source. rewrite Hgen. simpl.
    unfold fold_rupture, gsims_getitem. rewrite Hprob, Hgsim. simpl.
    rewrite Hctxs. simpl. rewrite !map_to_list_singleton. simpl.
    unfold fold_imt. simpl. rewrite Hpoes. simpl.
    unfold imul_at. rewrite lookup_singleton_eq. simpl.
    rewrite insert_singleton_eq.
    unfold complement_at. simpl. rewrite lookup_singleton_eq.
    rewrite insert_singleton_eq.
    unfold arr_map, item. simpl. by rewrite Rmult_1_l.
  - rewrite npow_09_half. pose proof sqrt_09_bounds.
    apply Rabs_def1; lra.
Qed.

Lemma C2_witness :
  hazard_curves_poissonian (complete 1) {["PGA" := [0.2%R]]} 50
    (crust_only 0.5) 3 source_site_noop_filter rupture_site_noop_filter 0
    [source_a]
    = Ok {["PGA" := mkArr 1 [[(1 - npow (1 - 0.1) 0.5)%R]]]}
  /\ (Rabs ((1 - npow (1 - 0.1) 0.5) - 0.05132) < 0.00001)%R.
Proof.
  apply (C2_single_rupture_scenario 50 3 0 0.2 (crust_only 0.5) source_a
           rupture_01 (stub_gsim 0.5)
           ({["vs30" := Vec [760%R]]}, ∅, ∅) "PGA");
    reflexivity.
Defined.

(** ** The Berge-Thierry (2003) GMPE *)

Section GMPEFacts.

Context (COEFFS05 COEFFS20 : BergeThierry2003.IMT ->
                             result BergeThierry2003.Coeffs).

Local Abbreviation the_get_mean_and_stddevs :=
  (BergeThierry2003.get_mean_and_stddevs COEFFS05 COEFFS20).

(** C9: [get_mean_and_stddevs] gives the same outcome for any two distance
    contexts; the distance term is read from the rupture context, so a
    rupture context without [rhypo] never lets the call return. *)
Theorem C9_dists_is_ignored
    (sites rup : Context) (imt : BergeThierry2003.IMT)
    (stddev_types : list BergeThierry2003.StdDev) :
  (forall dists dists' : Context,
     the_get_mean_and_stddevs sites rup dists imt stddev_types =
     the_get_mean_and_stddevs sites rup dists' imt stddev_types) /\
  (forall dists : Context,
     returned (the_get_mean_and_stddevs sites (delete "rhypo" rup) dists imt
                 stddev_types) = None).
Proof.
  split; [reflexivity|]. intros dists.
  unfold BergeThierry2003.get_mean_and_stddevs.
  destruct (BergeThierry2003.imt_item1 imt) as [damping|]; simpl; [|done].
  destruct (BergeThierry2003.table_for COEFFS05 COEFFS20 damping)
    as [table|]; simpl; [|done].
  destruct (table imt) as [C|]; simpl; [|done].
  destruct (BergeThierry2003._compute_magnitude_scaling
              (delete "rhypo" rup) C) as [mag_term|]; simpl; [|done].
  unfold BergeThierry2003._compute_distance_scaling, getattr.
  by rewrite lookup_delete_eq.
Qed.

End GMPEFacts.

(** C10: the site-amplification term of a site is [c1] when its [vs30] is
    at least 800 (so also at exactly 800) and [c2] when it is below; when the
    two coefficients differ it is [c1] exactly when [vs30 >= 800]; there is
    one term per site, in the order of the sites. *)
Theorem C10_site_amplification
    (sites : Context) (C : BergeThierry2003.Coeffs) (vs30s : list R) :
  sites !! "vs30" = Some (Vec vs30s) ->
  exists terms,
    BergeThierry2003._get_site_amplification sites C = Ok (Vec terms) /\
    length terms = length vs30s /\
    forall i vs30, vs30s !! i = Some vs30 ->
      ((800 <= vs30)%R -> terms !! i = Some (BergeThierry2003.c1 C)) /\
      ((vs30 < 800)%R -> terms !! i = Some (BergeThierry2003.c2 C)) /\
      (vs30 = 800%R -> terms !! i = Some (BergeThierry2003.c1 C)) /\
      (BergeThierry2003.c1 C <> BergeThierry2003.c2 C ->
       (terms !! i = Some (BergeThierry2003.c1 C) <-> (800 <= vs30)%R)).
Proof.
  intros Hvs30. eexists. split; [|split].
  - unfold BergeThierry2003._get_site_amplification, getattr.
    rewrite Hvs30. simpl. reflexivity.
  - by rewrite length_fmap.
  - intros i vs30 Hi. rewrite list_lookup_fmap, Hi. simpl.
    destruct (Rge_dec vs30 800) as [Hge|Hlt].
    + split; [done|]. split; [intros; lra|]. split; [done|].
      intros _. split; [intros _; lra|done].
    + split; [intros; lra|]. split; [done|]. split; [intros; lra|].
      intros Hne. split; [|intros; lra].
      intros [= Heq]. by destruct Hne.
Qed.

Lemma C10_witness :
  exists terms,
    BergeThierry2003._get_site_amplification two_sites row_003
      = Ok (Vec terms) /\
    length terms = length [800%R; 500%R] /\
    forall i vs30, [800%R; 500%R] !! i = Some vs30 ->
      ((800 <= vs30)%R -> terms !! i = Some (BergeThierry2003.c1 row_003)) /\
      ((vs30 < 800)%R -> terms !! i = Some (BergeThierry2003.c2 row_003)) /\
      (vs30 = 800%R -> terms !! i = Some (BergeThierry2003.c1 row_003)) /\
      (BergeThierry2003.c1 row_003 <> BergeThierry2003.c2 row_003 ->
       (terms !! i = Some (BergeThierry2003.c1 row_003) <-> (800 <= vs30)%R)).
Proof.
  apply (C10_site_amplification two_sites row_003 [800%R; 500%R]).
  reflexivity.
Defined.

(** * Further properties of the calculator *)

(** ** Shapes *)

Lemma proper_item a i j :
  proper a -> i < nrows a -> j < ncols a ->
  exists r x, rows a !! i = Some r /\ r !! j = Some x.
Proof.
  intros Ha Hi Hj. unfold nrows in Hi.
  destruct (lookup_lt_is_Some_2 _ _ Hi) as [r Hr].
  unfold proper in Ha. rewrite Forall_lookup in Ha.
  pose proof (Ha _ _ Hr) as Hlen. simpl in Hlen.
  destruct (lookup_lt_is_Some_2 r j) as [x Hx]; [lia|]. eauto.
Qed.

Lemma item_arr_map f a i j :
  proper a -> i < nrows a -> j < ncols a ->
  item (arr_map f a) i j = f (item a i j).
Proof.
  intros Ha Hi Hj. destruct (proper_item a i j Ha Hi Hj) as (r & x & Hr & Hx).
  unfold item, arr_map; simpl.
  by rewrite list_lookup_fmap, Hr; simpl; rewrite list_lookup_fmap, Hx.
Qed.

Lemma proper_arr_map f a : proper a -> proper (arr_map f a).
Proof.
  unfold proper, arr_map; simpl. intros Ha. apply Forall_fmap.
  eapply Forall_impl; [exact Ha|]. intros r Hr; simpl.
  by rewrite length_fmap.
Qed.

Lemma shape_arr_map f a : shape (arr_map f a) = shape a.
Proof. unfold shape, nrows, arr_map; simpl. by rewrite length_fmap. Qed.

Lemma proper_imul a b c : proper a -> arr_imul a b = Ok c -> proper c.
Proof.
  unfold arr_imul. case_decide; [|done]. intros Ha [= <-].
  unfold proper in *; simpl. apply Forall_lookup. intros i r Hr.
  apply list_lookup_imap_Some in Hr as (r0 & Hr0 & ->).
  rewrite length_imap. rewrite Forall_lookup in Ha. by apply (Ha i).
Qed.

Lemma proper_ones n m : proper (ones n m).
Proof.
  unfold proper, ones; simpl. apply Forall_replicate.
  by rewrite length_replicate.
Qed.

Lemma item_ones n m i j : i < n -> j < m -> item (ones n m) i j = 1%R.
Proof.
  intros Hi Hj. unfold item, ones; simpl.
  by rewrite lookup_replicate_2 by done; rewrite lookup_replicate_2.
Qed.

Lemma keeps_shapes_refl c : keeps_shapes c c.
Proof.
  split; [done|]. intros k a a' Ha Ha'. by simplify_eq.
Qed.

Lemma keeps_shapes_trans c1 c2 c3 :
  keeps_shapes c1 c2 -> keeps_shapes c2 c3 -> keeps_shapes c1 c3.
Proof.
  intros [Hk12 H12] [Hk23 H23]. split.
  - intros k. etrans; [apply Hk23|apply Hk12].
  - intros k a1 a3 Ha1 Ha3.
    destruct (proj2 (Hk12 k)) as [a2 Ha2]; [eauto|].
    destruct (H12 _ _ _ Ha1 Ha2) as [Hs12 Hp12].
    destruct (H23 _ _ _ Ha2 Ha3) as [Hs23 Hp23].
    split; [congruence|auto].
Qed.

Section CalculatorShapes.

Context (sites : SiteCollection) (imts : gmap string (list R)).
Context (time_span : R) (gsims : gmap string GSIM) (truncation_level : R).
Context (source_site_filter : site_filter Source).
Context (rupture_site_filter : site_filter Rupture).
Context (cav_min : R).

Local Abbreviation tom := (PoissonTOM time_span).
Local Abbreviation total := (len sites).
Local Abbreviation the_fold_rupture :=
  (fold_rupture imts gsims truncation_level cav_min).
Local Abbreviation the_fold_ruptures :=
  (fold_ruptures imts gsims truncation_level rupture_site_filter cav_min).
Local Abbreviation the_fold_sources :=
  (fold_sources sites imts gsims truncation_level source_site_filter
     rupture_site_filter cav_min).
Local Abbreviation the_calculator :=
  (hazard_curves_poissonian sites imts time_span gsims truncation_level
     source_site_filter rupture_site_filter cav_min).
Local Abbreviation the_init_curves := (init_curves sites imts).

Lemma fold_rupture_keeps_shapes n rupture r_sites c c' :
  the_fold_rupture n rupture r_sites c = Ok c' -> keeps_shapes c c'.
Proof.
  intros H. split; [by eapply fold_rupture_same_keys|].
  apply fold_rupture_Ok in H as (prob & gsim & ctxs & _ & _ & _ & H).
  apply foldM_fold_imt_spec in H as [H1 H2]; [|apply NoDup_fst_map_to_list].
  intros k a a' Ha Ha'. destruct (imts !! k) as [lv|] eqn:Hk.
  - apply elem_of_map_to_list in Hk.
    destruct (H2 k lv Hk) as (poes & a0 & a0' & _ & Ha0 & Hmul & Ha0').
    simplify_eq. split; [by eapply shape_imul|].
    intros Hp. by eapply proper_imul.
  - rewrite H1 in Ha' by by apply fst_map_to_list_None. by simplify_eq.
Qed.

Lemma fold_sources_keeps_shapes tm n sources c c' :
  the_fold_sources tm n sources c = Ok c' -> keeps_shapes c c'.
Proof.
  intros H.
  eapply (fold_sources_rel sites imts gsims truncation_level
            source_site_filter rupture_site_filter cav_min keeps_shapes
            keeps_shapes_refl keeps_shapes_trans (fun _ => True) n);
    [|done|exact H].
  intros r rs c0 c0' _. apply fold_rupture_keeps_shapes.
Qed.

(** The accumulators after the loop over the sources. *)
Lemma accumulators_shape tm n sources acc imt levels :
  the_fold_sources tm n sources the_init_curves = Ok acc ->
  imts !! imt = Some levels ->
  exists a, acc !! imt = Some a /\
            shape a = (len sites, length levels) /\ proper a.
Proof.
  intros H Himt. apply fold_sources_keeps_shapes in H as [Hkeys Hshape].
  assert (the_init_curves !! imt = Some (ones (len sites) (length levels)))
    as Hinit by (unfold init_curves; by rewrite lookup_fmap, Himt).
  destruct (proj2 (Hkeys imt)) as [a Ha]; [eauto|].
  destruct (Hshape _ _ _ Hinit Ha) as [Hs Hp].
  exists a. split; [done|]. split.
  - rewrite Hs. unfold shape, nrows, ones; simpl.
    by rewrite length_replicate.
  - apply Hp, proper_ones.
Qed.

Lemma calculator_Ok sources result :
  the_calculator sources = Ok result ->
  exists acc,
    the_fold_sources tom total sources the_init_curves = Ok acc /\
    result = arr_map (fun x => (1 - x)%R) <$> acc.
Proof.
  unfold hazard_curves_poissonian. intros H.
  apply bind_Ok in H as (acc & Hacc & H). exists acc. split; [done|].
  rewrite complement_all in H; [by injection H|].
  intros k. rewrite <- (init_curves_keys sites imts).
  by apply (fold_sources_same_keys _ _ _ _ _ _ _ _ _ _ _ _ Hacc).
Qed.

Lemma calculator_of_accumulators sources acc :
  the_fold_sources tom total sources the_init_curves = Ok acc ->
  the_calculator sources = Ok (arr_map (fun x => (1 - x)%R) <$> acc).
Proof.
  intros Hacc. unfold hazard_curves_poissonian. rewrite Hacc. simpl.
  apply complement_all. intros k. rewrite <- (init_curves_keys sites imts).
  by apply (fold_sources_same_keys _ _ _ _ _ _ _ _ _ _ _ _ Hacc).
Qed.

(** X1: what the calculator returns has exactly the keys of [imts], and the
    array of an IMT has one row per site of [sites] and, in every row, one
    value per level of that IMT. *)
Theorem X1_result_keys_and_shapes sources result :
  the_calculator sources = Ok result ->
  forall imt,
    (imts !! imt = None -> result !! imt = None) /\
    (forall levels, imts !! imt = Some levels ->
       exists a, result !! imt = Some a /\
                 nrows a = len sites /\ ncols a = length levels /\
                 Forall (fun row => length row = length levels) (rows a)).
Proof.
  intros H imt. apply calculator_Ok in H as (acc & Hacc & ->).
  rewrite lookup_fmap. split.
  - intros Hnone.
    pose proof (fold_sources_same_keys _ _ _ _ _ _ _ _ _ _ _ _ Hacc imt)
      as Hk.
    rewrite (init_curves_keys sites imts), Hnone in Hk.
    destruct (acc !! imt) eqn:E; [|done].
    destruct (proj1 Hk) as [? ?]; [eauto|done].
  - intros levels Himt.
    destruct (accumulators_shape _ _ _ _ _ _ Hacc Himt) as (a & -> & Hs & Hp).
    eexists. split; [reflexivity|].
    pose proof (shape_arr_map (fun x => (1 - x)%R) a) as Hs'.
    rewrite Hs in Hs'. injection Hs' as Hr Hc. repeat split; try done.
    apply (proper_arr_map (fun x => (1 - x)%R)) in Hp.
    eapply Forall_impl; [exact Hp|]. intros r Hlen. simpl in *. congruence.
Qed.

End CalculatorShapes.

(** ** Entities that contribute nothing, and the errors that can escape *)

Section CalculatorNeutral.

Context (sites : SiteCollection) (imts : gmap string (list R)).
Context (time_span : R) (gsims : gmap string GSIM) (truncation_level : R).
Context (source_site_filter : site_filter Source).
Context (rupture_site_filter : site_filter Rupture).
Context (cav_min : R).

Local Abbreviation tom := (PoissonTOM time_span).
Local Abbreviation total := (len sites).
Local Abbreviation the_fold_ruptures :=
  (fold_ruptures imts gsims truncation_level rupture_site_filter cav_min).
Local Abbreviation the_try_source :=
  (try_source imts gsims truncation_level rupture_site_filter cav_min).
Local Abbreviation the_fold_sources :=
  (fold_sources sites imts gsims truncation_level source_site_filter
     rupture_site_filter cav_min).
Local Abbreviation the_calculator :=
  (hazard_curves_poissonian sites imts time_span gsims truncation_level
     source_site_filter rupture_site_filter cav_min).
Local Abbreviation the_init_curves := (init_curves sites imts).

Lemma calculator_replace_source
    (sources_before : list Source) source source' sources_after :
  (forall c, the_fold_sources tom total [source] c =
             the_fold_sources tom total [source'] c) ->
  the_calculator (sources_before ++ source :: sources_after) =
  the_calculator (sources_before ++ source' :: sources_after).
Proof.
  intros Hsame. unfold hazard_curves_poissonian.
  rewrite !(fold_sources_app _ _ _ _ _ _ _ _ _ sources_before).
  destruct (the_fold_sources tom total sources_before the_init_curves)
    as [acc|]; cbn [bind]; [|done].
  change (source :: sources_after) with ([source] ++ sources_after).
  change (source' :: sources_after) with ([source'] ++ sources_after).
  rewrite (fold_sources_app _ _ _ _ _ _ _ _ _ [source]).
  rewrite (fold_sources_app _ _ _ _ _ _ _ _ _ [source']).
  by rewrite Hsame.
Qed.

(** X2: a source that the source-site filter drops, or that is kept but
    yields no rupture, can be removed from the list, wherever it stands,
    without changing the outcome of the call (curves or error). *)
Theorem X2_dropped_or_empty_source_is_neutral
    (sources_before : list Source) source sources_after :
  source_site_filter source sites = Ok None \/
  (exists s_sites, source_site_filter source sites = Ok (Some s_sites) /\
                   iter_ruptures source tom = Stop) ->
  the_calculator (sources_before ++ source :: sources_after) =
  the_calculator (sources_before ++ sources_after).
Proof.
  intros Hdrop. unfold hazard_curves_poissonian.
  rewrite !(fold_sources_app _ _ _ _ _ _ _ _ _ sources_before).
  destruct (the_fold_sources tom total sources_before the_init_curves)
    as [acc|]; simpl; [|done].
  destruct Hdrop as [->|(ss & -> & Hstop)]; simpl; [done|].
  unfold try_source. by rewrite Hstop.
Qed.

(** X3: a rupture that the rupture-site filter drops can be removed from
    what its source yields, wherever it stands, without changing the outcome
    of the call: the two sources below differ only by that rupture. *)
Theorem X3_dropped_rupture_is_neutral
    (sources_before : list Source) source source' sources_after
    ruptures_before rupture ruptures_after :
  source_id source' = source_id source ->
  source_site_filter source' sites = source_site_filter source sites ->
  iter_ruptures source tom =
    gen_app ruptures_before (Yield rupture ruptures_after) ->
  iter_ruptures source' tom = gen_app ruptures_before ruptures_after ->
  (forall s_sites, source_site_filter source sites = Ok (Some s_sites) ->
                   rupture_site_filter rupture s_sites = Ok None) ->
  the_calculator (sources_before ++ source :: sources_after) =
  the_calculator (sources_before ++ source' :: sources_after).
Proof.
  intros Hid Hfilter Hgen Hgen' Hdrop.
  apply calculator_replace_source. intros c. simpl. rewrite Hfilter.
  destruct (source_site_filter source sites) as [[ss|]|] eqn:Hss;
    simpl; try done.
  unfold try_source, source_error_msg. rewrite Hgen, Hgen', Hid.
  rewrite (fold_ruptures_app _ _ _ _ _ _ ruptures_before (Yield _ _)).
  rewrite (fold_ruptures_app _ _ _ _ _ _ ruptures_before ruptures_after).
  destruct (the_fold_ruptures total (gen_app ruptures_before Stop) ss c)
    as [c1|]; simpl; [|done].
  by rewrite (Hdrop ss eq_refl).
Qed.

Lemma fold_sources_Raise tm n sources c e :
  the_fold_sources tm n sources c = Raise e ->
  (exists source, source ∈ sources /\
                  source_site_filter source sites = Raise e) \/
  (exists source s_sites acc err,
     source ∈ sources /\
     source_site_filter source sites = Ok (Some s_sites) /\
     the_fold_ruptures n (iter_ruptures source tm) s_sites acc = Raise err /\
     e = RuntimeError
           ("An error occurred with source id=" +:+ source_id source +:+
            ". Error: " +:+ message err)).
Proof.
  revert c. induction sources as [|s rest IH]; intros c; simpl; [done|].
  assert (forall c', the_fold_sources tm n rest c' = Raise e ->
    (exists source, source ∈ s :: rest /\
                    source_site_filter source sites = Raise e) \/
    (exists source s_sites acc err,
       source ∈ s :: rest /\
       source_site_filter source sites = Ok (Some s_sites) /\
       the_fold_ruptures n (iter_ruptures source tm) s_sites acc
         = Raise err /\
       e = RuntimeError
             ("An error occurred with source id=" +:+ source_id source +:+
              ". Error: " +:+ message err))) as Hrest.
  { intros c' Hc'. destruct (IH _ Hc') as [(s0 & Hin & H0)|
                                            (s0 & ss & acc & err & Hin & H0)].
    - left. exists s0. split; [by apply list_elem_of_further|done].
    - right. exists s0, ss, acc, err.
      split; [by apply list_elem_of_further|done]. }
  destruct (source_site_filter s sites) as [[ss|]|e0] eqn:Hss; simpl.
  - unfold try_source.
    destruct (the_fold_ruptures n (iter_ruptures s tm) ss c)
      as [c1|err] eqn:Hfold; simpl; [apply Hrest|].
    intros [= <-]. right. exists s, ss, c, err.
    split; [apply list_elem_of_here|done].
  - apply Hrest.
  - intros [= <-]. left. exists s. split; [apply list_elem_of_here|done].
Qed.

(** X4: for a positive time span (so that the temporal occurrence model is
    built), the only errors that escape the calculator are an error raised
    by the source-site filter on one of the sources, as raised, and the
    [RuntimeError] built by the [except] clause for one of the sources from
    an error raised while its ruptures were processed; in particular the
    complement loop at the end never raises. *)
Theorem X4_errors_that_escape sources e :
  (0 < time_span)%R ->
  the_calculator sources = Raise e ->
  (exists source, source ∈ sources /\
                  source_site_filter source sites = Raise e) \/
  (exists source s_sites acc err,
     source ∈ sources /\
     source_site_filter source sites = Ok (Some s_sites) /\
     the_fold_ruptures total (iter_ruptures source tom) s_sites acc
       = Raise err /\
     e = RuntimeError
           ("An error occurred with source id=" +:+ source_id source +:+
            ". Error: " +:+ message err)).
Proof.
  intros _ H.
  destruct (the_fold_sources tom total sources the_init_curves)
    as [acc|e0] eqn:Hfold.
  - rewrite (calculator_of_accumulators _ _ _ _ _ _ _ _ _ _ Hfold) in H.
    done.
  - unfold hazard_curves_poissonian in H. rewrite Hfold in H.
    injection H as ->. by eapply fold_sources_Raise.
Qed.

End CalculatorNeutral.

(** ** Combining runs *)

Lemma item_mul_rows n rs b i j :
  item (mkArr n (mul_rows rs b)) i j =
  (item (mkArr n rs) i j * bitem b i j)%R.
Proof.
  unfold item at 1 2, mul_rows; simpl. rewrite list_lookup_imap.
  destruct (rs !! i) as [r|]; simpl; [|by rewrite Rmult_0_l].
  rewrite list_lookup_imap.
  destruct (r !! j); simpl; [done|by rewrite Rmult_0_l].
Qed.

Lemma apply_updates_items us :
  forall c c', apply_updates us c = Some c' ->
  forall k a, c !! k = Some a ->
  exists a', c' !! k = Some a' /\ shape a' = shape a /\
             forall i j,
               item a' i j = (item a i j * update_factor us k i j)%R.
Proof.
  induction us as [|u us IH]; intros c c' H k a Ha; simpl in *.
  - injection H as <-. exists a. repeat split; try done.
    intros i j. lra.
  - apply bind_Some in H as (c1 & H1 & H2).
    apply apply_update_Some in H1 as (a0 & Ha0 & Hs & ->).
    destruct (decide (u.1 = k)) as [<-|Hne].
    + simplify_eq.
      destruct (IH _ _ H2 u.1 _ (lookup_insert_eq _ _ _))
        as (a' & Ha' & Hs' & Hitems).
      exists a'. split; [done|]. split.
      { by rewrite Hs', shape_mul_rows. }
      intros i j. rewrite Hitems, item_mul_rows.
      unfold item at 1 2; simpl. ring.
    + rewrite <- (lookup_insert_ne c u.1 k
                    (mkArr (ncols a0) (mul_rows (rows a0) u.2))) in Ha
        by done.
      destruct (IH _ _ H2 k a Ha) as (a' & Ha' & Hs' & Hitems).
      by exists a'.
Qed.

Lemma apply_updates_shapes us :
  forall c d c', apply_updates us c = Some c' ->
  (forall k a, c !! k = Some a ->
     exists b, d !! k = Some b /\ shape b = shape a) ->
  exists d', apply_updates us d = Some d'.
Proof.
  induction us as [|u us IH]; intros c d c' H Hcd; simpl in *; [eauto|].
  apply bind_Some in H as (c1 & H1 & H2).
  apply apply_update_Some in H1 as (a0 & Ha0 & Hs & ->).
  destruct (Hcd _ _ Ha0) as (b0 & Hb0 & Hsb).
  assert (apply_update d u =
          Some (<[u.1 := mkArr (ncols b0) (mul_rows (rows b0) u.2)]> d))
    as Hd.
  { apply apply_update_Some. exists b0. split; [done|]. split; [|done].
    by eapply broadcastable_to_shape. }
  rewrite Hd; simpl. eapply IH; [exact H2|].
  intros k a Ha. destruct (decide (k = u.1)) as [->|Hne].
  - rewrite lookup_insert_eq in Ha. injection Ha as <-.
    eexists. rewrite lookup_insert_eq. split; [done|].
    by rewrite !shape_mul_rows.
  - rewrite lookup_insert_ne in Ha by done.
    rewrite lookup_insert_ne by done. by apply Hcd.
Qed.

Section CalculatorCombine.

Context (sites : SiteCollection) (imts : gmap string (list R)).
Context (time_span : R) (gsims : gmap string GSIM) (truncation_level : R).
Context (source_site_filter : site_filter Source).
Context (rupture_site_filter : site_filter Rupture).
Context (cav_min : R).

Local Abbreviation tom := (PoissonTOM time_span).
Local Abbreviation total := (len sites).
Local Abbreviation the_fold_rupture :=
  (fold_rupture imts gsims truncation_level cav_min).
Local Abbreviation the_fold_ruptures :=
  (fold_ruptures imts gsims truncation_level rupture_site_filter cav_min).
Local Abbreviation the_fold_sources :=
  (fold_sources sites imts gsims truncation_level source_site_filter
     rupture_site_filter cav_min).
Local Abbreviation the_calculator :=
  (hazard_curves_poissonian sites imts time_span gsims truncation_level
     source_site_filter rupture_site_filter cav_min).
Local Abbreviation the_init_curves := (init_curves sites imts).

Lemma fold_sources_product tm n sources :
  product_step (fun c => returned (the_fold_sources tm n sources c)).
Proof.
  induction sources as [|s rest IH].
  - apply product_step_ret.
  - eapply product_step_ext; [intros c; apply fold_sources_cons|].
    apply (product_step_bind
             (fun c => returned (the_fold_sources tm n [s] c))
             (fun c => returned (the_fold_sources tm n rest c)));
      [apply one_source_product|apply IH].
Qed.

Lemma returned_Some {A : Type} (r : result A) (a : A) :
  returned r = Some a -> r = Ok a.
Proof. destruct r; simpl; congruence. Qed.

(** X5: when the runs on two lists of sources both return, so does the run
    on their concatenation, and on the (site, level) grid of every IMT its
    curve is [1 - (1 - curve_A) * (1 - curve_B)]. *)
Theorem X5_concatenation_law (sources_a sources_b : list Source) curves_a
    curves_b :
  the_calculator sources_a = Ok curves_a ->
  the_calculator sources_b = Ok curves_b ->
  exists curves_ab,
    the_calculator (sources_a ++ sources_b) = Ok curves_ab /\
    forall imt levels, imts !! imt = Some levels ->
    exists a b ab,
      curves_a !! imt = Some a /\ curves_b !! imt = Some b /\
      curves_ab !! imt = Some ab /\
      forall i j, i < len sites -> j < length levels ->
        item ab i j = (1 - (1 - item a i j) * (1 - item b i j))%R.
Proof.
  intros Ha Hb.
  apply calculator_Ok in Ha as (acc_a & Hacc_a & ->).
  apply calculator_Ok in Hb as (acc_b & Hacc_b & ->).
  destruct (fold_sources_product tom total sources_b) as [o Ho].
  pose proof (Ho the_init_curves) as Hb_init.
  rewrite Hacc_b in Hb_init. simpl in Hb_init.
  destruct o as [us|]; [|done]. symmetry in Hb_init.
  destruct (apply_updates_shapes us the_init_curves acc_a acc_b Hb_init)
    as [acc_ab Hab].
  { intros k a Hk.
    destruct (fold_sources_keeps_shapes _ _ _ _ _ _ _ _ _ _ _ _ Hacc_a)
      as [Hkeys Hshape].
    destruct (proj2 (Hkeys k)) as [b Hb]; [eauto|].
    exists b. split; [done|]. by destruct (Hshape _ _ _ Hk Hb). }
  assert (the_fold_sources tom total (sources_a ++ sources_b)
            the_init_curves = Ok acc_ab) as Hacc_ab.
  { rewrite fold_sources_app, Hacc_a. simpl.
    apply returned_Some. by rewrite Ho. }
  exists (arr_map (fun x => (1 - x)%R) <$> acc_ab).
  split; [by apply calculator_of_accumulators|].
  intros imt levels Himt.
  destruct (accumulators_shape _ _ _ _ _ _ _ _ _ _ _ _ _ Hacc_a Himt)
    as (a & Ha & Hsa & Hpa).
  destruct (accumulators_shape _ _ _ _ _ _ _ _ _ _ _ _ _ Hacc_b Himt)
    as (b & Hb & Hsb & Hpb).
  destruct (accumulators_shape _ _ _ _ _ _ _ _ _ _ _ _ _ Hacc_ab Himt)
    as (ab & Hab' & Hsab & Hpab).
  exists (arr_map (fun x => (1 - x)%R) a), (arr_map (fun x => (1 - x)%R) b),
         (arr_map (fun x => (1 - x)%R) ab).
  rewrite !lookup_fmap, Ha, Hb, Hab'. repeat split; try done.
  intros i j Hi Hj.
  injection Hsa as Hra Hca. injection Hsb as Hrb Hcb.
  injection Hsab as Hrab Hcab.
  rewrite !item_arr_map by (try done; lia).
  assert (the_init_curves !! imt = Some (ones (len sites) (length levels)))
    as Hinit by (unfold init_curves; by rewrite lookup_fmap, Himt).
  destruct (apply_updates_items us _ _ Hb_init imt _ Hinit)
    as (b' & Hb' & _ & Hitems_b).
  destruct (apply_updates_items us _ _ Hab imt _ Ha)
    as (ab' & Hab'' & _ & Hitems_ab).
  simplify_eq. rewrite Hitems_ab. specialize (Hitems_b i j).
  rewrite item_ones in Hitems_b by done.
  rewrite Hitems_b. lra.
Qed.

End CalculatorCombine.

(** ** Single fold steps and what they add up to *)

Lemma keeps_row_refl i c : keeps_row i c c.
Proof.
  split; [apply keeps_shapes_refl|]. intros k a a' Ha Ha'. by simplify_eq.
Qed.

Lemma keeps_row_trans i c1 c2 c3 :
  keeps_row i c1 c2 -> keeps_row i c2 c3 -> keeps_row i c1 c3.
Proof.
  intros [Hs12 H12] [Hs23 H23].
  split; [by eapply keeps_shapes_trans|].
  intros k a1 a3 Ha1 Ha3 j Hj.
  destruct (proj2 (proj1 Hs12 k)) as [a2 Ha2]; [eauto|].
  destruct (proj2 Hs12 _ _ _ Ha1 Ha2) as [Hshape _].
  injection Hshape as _ Hcols.
  rewrite (H23 _ _ _ Ha2 Ha3 j) by lia. by apply (H12 _ _ _ Ha1 Ha2).
Qed.

Lemma shrinks_refl c : shrinks c c.
Proof.
  split; [done|]. intros Hc. split; [done|].
  intros k a a' Ha Ha' i j. simplify_eq. lra.
Qed.

Lemma shrinks_trans c1 c2 c3 : shrinks c1 c2 -> shrinks c2 c3 -> shrinks c1 c3.
Proof.
  intros [Hk12 H12] [Hk23 H23]. split.
  - intros k. etrans; [apply Hk23|apply Hk12].
  - intros Hc1. destruct (H12 Hc1) as [Hc2 Hle12].
    destruct (H23 Hc2) as [Hc3 Hle23]. split; [done|].
    intros k a1 a3 Ha1 Ha3 i j.
    destruct (proj2 (Hk12 k)) as [a2 Ha2]; [eauto|].
    pose proof (Hle12 _ _ _ Ha1 Ha2 i j).
    pose proof (Hle23 _ _ _ Ha2 Ha3 i j). lra.
Qed.

Lemma npow_1_l y : npow 1 y = 1%R.
Proof.
  unfold npow. destruct (Req_dec_T 1 0) as [H|_]; [lra|].
  unfold Rpower. by rewrite ln_1, Rmult_0_r, exp_0.
Qed.

Lemma npow_0_l_pos y : (0 < y)%R -> npow 0 y = 0%R.
Proof.
  intros Hy. unfold npow. destruct (Req_dec_T 0 0) as [_|H]; [|lra].
  destruct (Req_dec_T y 0); [lra|done].
Qed.

Lemma npow_0_0 : npow 0 0 = 1%R.
Proof.
  unfold npow. destruct (Req_dec_T 0 0) as [_|H]; [|lra]. done.
Qed.

Section CalculatorSteps.

Context (sites : SiteCollection) (imts : gmap string (list R)).
Context (time_span : R) (gsims : gmap string GSIM) (truncation_level : R).
Context (source_site_filter : site_filter Source).
Context (rupture_site_filter : site_filter Rupture).
Context (cav_min : R).

Local Abbreviation tom := (PoissonTOM time_span).
Local Abbreviation total := (len sites).
Local Abbreviation the_fold_rupture :=
  (fold_rupture imts gsims truncation_level cav_min).
Local Abbreviation the_fold_ruptures :=
  (fold_ruptures imts gsims truncation_level rupture_site_filter cav_min).
Local Abbreviation the_try_source :=
  (try_source imts gsims truncation_level rupture_site_filter cav_min).
Local Abbreviation the_fold_sources :=
  (fold_sources sites imts gsims truncation_level source_site_filter
     rupture_site_filter cav_min).
Local Abbreviation the_calculator :=
  (hazard_curves_poissonian sites imts time_span gsims truncation_level
     source_site_filter rupture_site_filter cav_min).
Local Abbreviation the_init_curves := (init_curves sites imts).

(** What one fold step does to the accumulator of every key. *)
Lemma fold_rupture_per_imt n rupture r_sites c c' :
  the_fold_rupture n rupture r_sites c = Ok c' ->
  exists prob gsim ctxs,
    get_probability_one_or_more_occurrences rupture = Ok prob /\
    gsims !! tectonic_region_type rupture = Some gsim /\
    make_contexts gsim r_sites rupture = Ok ctxs /\
    (forall k, imts !! k = None -> c' !! k = c !! k) /\
    (forall k lv, imts !! k = Some lv ->
       exists poes a a',
         get_poes_cav gsim ctxs k lv truncation_level cav_min = Ok poes /\
         c !! k = Some a /\
         arr_imul a (expand r_sites (arr_map (npow (1 - prob)) poes) n 1)
           = Ok a' /\
         c' !! k = Some a').
Proof.
  intros H. apply fold_rupture_Ok in H as (prob & gsim & ctxs & Hp & Hg & Hc & H).
  apply foldM_fold_imt_spec in H as [H1 H2]; [|apply NoDup_fst_map_to_list].
  exists prob, gsim, ctxs. repeat split; try done.
  - intros k Hk. by apply H1, fst_map_to_list_None.
  - intros k lv Hk. by apply H2, elem_of_map_to_list.
Qed.

(** Invariants of the loops that only look at the subsets the rupture-site
    filter lets through. *)
Section KeptInvariant.

Variable Rel : gmap string ndarray -> gmap string ndarray -> Prop.
Hypothesis Rel_refl : forall c, Rel c c.
Hypothesis Rel_trans : forall c1 c2 c3, Rel c1 c2 -> Rel c2 c3 -> Rel c1 c3.
Variable n : nat.
Hypothesis Rel_step : forall r s rs c c',
  rupture_site_filter r s = Ok (Some rs) ->
  the_fold_rupture n r rs c = Ok c' -> Rel c c'.

Lemma fold_ruptures_rel_kept g s_sites :
  forall c c', the_fold_ruptures n g s_sites c = Ok c' -> Rel c c'.
Proof.
  induction g as [|r rest IH|e]; intros c c'; simpl.
  - intros [= ->]. apply Rel_refl.
  - intros H. apply bind_Ok in H as ([rs|] & Hrs & H); [|by apply IH].
    apply bind_Ok in H as (c1 & H1 & H2).
    eapply Rel_trans; [eapply Rel_step; eauto|by apply IH].
  - done.
Qed.

Lemma fold_sources_rel_kept tm sources :
  forall c c', the_fold_sources tm n sources c = Ok c' -> Rel c c'.
Proof.
  induction sources as [|s rest IH]; intros c c'; simpl.
  - intros [= ->]. apply Rel_refl.
  - intros H. apply bind_Ok in H as ([ss|] & _ & H); [|by apply IH].
    apply bind_Ok in H as (c1 & H1 & H2).
    eapply Rel_trans; [|by apply IH]. unfold try_source in H1.
    destruct (the_fold_ruptures n (iter_ruptures s tm) ss c)
      as [c1'|] eqn:E; [|done].
    injection H1 as <-. by eapply fold_ruptures_rel_kept.
Qed.

End KeptInvariant.

Lemma fold_rupture_keeps_row i rupture r_sites c c' :
  i ∉ indices r_sites -> i < total ->
  the_fold_rupture total rupture r_sites c = Ok c' -> keeps_row i c c'.
Proof.
  intros Habs Hi H. split; [by eapply fold_rupture_keeps_shapes|].
  apply fold_rupture_per_imt in H
    as (prob & gsim & ctxs & _ & _ & _ & Hnone & Hsome).
  intros k a a' Ha Ha' j Hj. destruct (imts !! k) as [lv|] eqn:Hk.
  - destruct (Hsome k lv Hk) as (poes & a0 & a0' & _ & Ha0 & Hmul & Ha0').
    simplify_eq. rewrite (item_imul _ _ _ i j Hmul).
    erewrite bitem_expand_absent; [lra| |done|done|exact Hj].
    by eapply imul_broadcastable.
  - rewrite (Hnone k Hk) in Ha'. by simplify_eq.
Qed.

(** X6: a site that the rupture-site filter never keeps has zero
    probability of exceedance at every level of every IMT. *)
Theorem X6_site_never_kept_has_zero_hazard sources result i :
  (forall r s rs, rupture_site_filter r s = Ok (Some rs) ->
                  i ∉ indices rs) ->
  i < len sites ->
  the_calculator sources = Ok result ->
  forall imt levels, imts !! imt = Some levels ->
  exists a, result !! imt = Some a /\
            forall j, j < length levels -> item a i j = 0%R.
Proof.
  intros Hnever Hi H imt levels Himt.
  apply calculator_Ok in H as (acc & Hacc & ->).
  destruct (accumulators_shape _ _ _ _ _ _ _ _ _ _ _ _ _ Hacc Himt)
    as (a & Ha & Hs & Hp).
  exists (arr_map (fun x => (1 - x)%R) a).
  rewrite lookup_fmap, Ha. split; [done|]. intros j Hj.
  injection Hs as Hr Hc.
  rewrite item_arr_map by (try done; lia).
  assert (keeps_row i the_init_curves acc) as [_ Hrow].
  { eapply (fold_sources_rel_kept (keeps_row i) (keeps_row_refl i)
              (keeps_row_trans i) total); [|exact Hacc].
    intros r s rs c c' Hkept. apply fold_rupture_keeps_row; eauto. }
  assert (the_init_curves !! imt = Some (ones (len sites) (length levels)))
    as Hinit by (unfold init_curves; by rewrite lookup_fmap, Himt).
  rewrite (Hrow _ _ _ Hinit Ha j) by done.
  rewrite item_ones by done. lra.
Qed.

Section UnitIntervalMore.

Hypothesis poes_in01 : forall trt gsim ctxs imt levels poes,
  gsims !! trt = Some gsim ->
  get_poes_cav gsim ctxs imt levels truncation_level cav_min = Ok poes ->
  in01 poes.

Lemma fold_sources_shrinks sources c c' :
  (forall source rupture, source ∈ sources ->
     yields rupture (iter_ruptures source tom) -> prob_in01 rupture) ->
  the_fold_sources tom total sources c = Ok c' -> shrinks c c'.
Proof.
  intros Hprobs H.
  eapply (fold_sources_rel sites imts gsims truncation_level
            source_site_filter rupture_site_filter cav_min shrinks
            shrinks_refl shrinks_trans prob_in01 total);
    [|exact Hprobs|exact H].
  intros r rs c0 c0' Hgood H0. split; [by eapply fold_rupture_same_keys|].
  intros Hc0. by eapply fold_rupture_in01.
Qed.

(** X7: with exceedance and occurrence probabilities in [[0, 1]], adding
    sources never lowers a curve: on the (site, level) grid of every IMT the
    curve for [sources_a ++ sources_b] is at least the curve for
    [sources_a]. *)
Theorem X7_more_sources_never_lower_the_curves
    (sources_a sources_b : list Source) curves_a curves_ab :
  (forall source rupture, source ∈ sources_a ++ sources_b ->
     yields rupture (iter_ruptures source tom) -> prob_in01 rupture) ->
  the_calculator sources_a = Ok curves_a ->
  the_calculator (sources_a ++ sources_b) = Ok curves_ab ->
  forall imt levels, imts !! imt = Some levels ->
  exists a ab,
    curves_a !! imt = Some a /\ curves_ab !! imt = Some ab /\
    forall i j, i < len sites -> j < length levels ->
      (item a i j <= item ab i j)%R.
Proof.
  intros Hprobs Ha Hab imt levels Himt.
  apply calculator_Ok in Ha as (acc_a & Hacc_a & ->).
  apply calculator_Ok in Hab as (acc_ab & Hacc_ab & ->).
  pose proof Hacc_ab as Hsplit.
  rewrite fold_sources_app, Hacc_a in Hsplit. simpl in Hsplit.
  assert (shrinks the_init_curves acc_a) as [_ Hin_a].
  { eapply fold_sources_shrinks; [|exact Hacc_a].
    intros s r Hs. apply Hprobs, elem_of_app. by left. }
  destruct (Hin_a (init_curves_in01 sites imts)) as [Hacc_a01 _].
  assert (shrinks acc_a acc_ab) as [_ Hin_b].
  { eapply fold_sources_shrinks; [|exact Hsplit].
    intros s r Hs. apply Hprobs, elem_of_app. by right. }
  destruct (Hin_b Hacc_a01) as [_ Hle].
  destruct (accumulators_shape _ _ _ _ _ _ _ _ _ _ _ _ _ Hacc_a Himt)
    as (a & Ha & Hsa & Hpa).
  destruct (accumulators_shape _ _ _ _ _ _ _ _ _ _ _ _ _ Hacc_ab Himt)
    as (ab & Hab & Hsab & Hpab).
  exists (arr_map (fun x => (1 - x)%R) a), (arr_map (fun x => (1 - x)%R) ab).
  rewrite !lookup_fmap, Ha, Hab. repeat split; try done.
  intros i j Hi Hj. injection Hsa as Hra Hca. injection Hsab as Hrab Hcab.
  rewrite !item_arr_map by (try done; lia).
  pose proof (Hle _ _ _ Ha Hab i j). lra.
Qed.

End UnitIntervalMore.

End CalculatorSteps.

(** ** Edge values of the occurrence probability, and the order of ruptures *)

Lemma item_expand_ones s data n i j :
  proper data ->
  (forall k r j' x, rows data !! k = Some r -> r !! j' = Some x -> x = 1%R) ->
  i < n -> j < ncols data ->
  item (expand s data n 1) i j = 1%R.
Proof.
  intros Hp Hones Hi Hj. unfold item. rewrite expand_row by done.
  assert (replicate (ncols data) 1%R !! j = Some 1%R) as Hblank
    by by apply lookup_replicate_2.
  destruct (list_find (eq i) (indices s)) as [[k ?]|]; [|by rewrite Hblank].
  destruct (rows data !! k) as [r|] eqn:Hr; simpl; [|by rewrite Hblank].
  unfold proper in Hp. rewrite Forall_lookup in Hp.
  pose proof (Hp _ _ Hr) as Hlen. simpl in Hlen.
  destruct (lookup_lt_is_Some_2 r j) as [x Hx]; [lia|].
  rewrite Hx. by eapply Hones.
Qed.

Lemma bitem_expand_ones s data n a i j :
  proper data ->
  (forall k r j' x, rows data !! k = Some r -> r !! j' = Some x -> x = 1%R) ->
  broadcastable_to a (expand s data n 1) ->
  i < n -> j < ncols a ->
  bitem (expand s data n 1) i j = 1%R.
Proof.
  intros Hp Hones [_ Hcols] Hi Hj. unfold bitem. rewrite nrows_expand.
  rewrite (bindex_in_range n i) by done.
  apply item_expand_ones; [done|done|done|].
  by apply (bindex_stretched _ (ncols a)).
Qed.

Section CalculatorEdges.

Context (sites : SiteCollection) (imts : gmap string (list R)).
Context (time_span : R) (gsims : gmap string GSIM) (truncation_level : R).
Context (source_site_filter : site_filter Source).
Context (rupture_site_filter : site_filter Rupture).
Context (cav_min : R).

Local Abbreviation tom := (PoissonTOM time_span).
Local Abbreviation total := (len sites).
Local Abbreviation the_fold_rupture :=
  (fold_rupture imts gsims truncation_level cav_min).
Local Abbreviation the_fold_ruptures :=
  (fold_ruptures imts gsims truncation_level rupture_site_filter cav_min).
Local Abbreviation the_fold_sources :=
  (fold_sources sites imts gsims truncation_level source_site_filter
     rupture_site_filter cav_min).
Local Abbreviation the_calculator :=
  (hazard_curves_poissonian sites imts time_span gsims truncation_level
     source_site_filter rupture_site_filter cav_min).
Local Abbreviation the_init_curves := (init_curves sites imts).

(** X8: folding a rupture whose occurrence probability is 0 leaves every
    accumulator as it was on its (site, level) grid, whatever the model
    answers (as long as it answers arrays whose rows are complete). *)
Theorem X8_rupture_that_never_occurs_is_neutral rupture r_sites c c' :
  get_probability_one_or_more_occurrences rupture = Ok 0%R ->
  (forall gsim ctxs imt levels poes,
     gsims !! tectonic_region_type rupture = Some gsim ->
     get_poes_cav gsim ctxs imt levels truncation_level cav_min = Ok poes ->
     proper poes) ->
  the_fold_rupture total rupture r_sites c = Ok c' ->
  forall imt a, c !! imt = Some a ->
  exists a', c' !! imt = Some a' /\
             forall i j, i < total -> j < ncols a ->
                         item a' i j = item a i j.
Proof.
  intros Hzero Hproper H imt a Ha.
  apply fold_rupture_per_imt in H
    as (prob & gsim & ctxs & Hp & Hg & _ & Hnone & Hsome).
  rewrite Hzero in Hp. injection Hp as <-.
  destruct (imts !! imt) as [lv|] eqn:Hk.
  - destruct (Hsome imt lv Hk) as (poes & a0 & a' & Hpoes & Ha0 & Hmul & Ha').
    simplify_eq. exists a'. split; [done|]. intros i j Hi Hj.
    rewrite (item_imul _ _ _ i j Hmul).
    erewrite bitem_expand_ones; [lra| | | |done|exact Hj].
    + apply proper_arr_map. by eapply Hproper.
    + intros k r j' x Hr Hx. unfold arr_map in Hr; simpl in Hr.
      rewrite list_lookup_fmap in Hr.
      destruct (rows poes !! k) as [r0|]; [|done]. injection Hr as <-.
      rewrite list_lookup_fmap in Hx.
      destruct (r0 !! j') as [x0|]; [|done]. injection Hx as <-.
      replace (1 - 0)%R with 1%R by lra. apply npow_1_l.
    + by eapply imul_broadcastable.
  - exists a. by rewrite (Hnone imt Hk).
Qed.

(** X9: folding a rupture whose occurrence probability is 1 sets the
    accumulator to 0 at every site of the subset and level where the
    exceedance probability is positive, and leaves it where the exceedance
    probability is exactly 0 (as [0 ** 0] is 1).  The exceedance probability
    of level [j] is the one broadcasting reads: column [j] of [poes], or its
    only column when it has one; for an array whose rows are complete that
    is every value it holds. *)
Theorem X9_rupture_that_occurs_for_sure rupture r_sites c c' :
  get_probability_one_or_more_occurrences rupture = Ok 1%R ->
  NoDup (indices r_sites) ->
  the_fold_rupture total rupture r_sites c = Ok c' ->
  exists gsim ctxs,
    gsims !! tectonic_region_type rupture = Some gsim /\
    make_contexts gsim r_sites rupture = Ok ctxs /\
    forall imt levels, imts !! imt = Some levels ->
    exists poes a a',
      get_poes_cav gsim ctxs imt levels truncation_level cav_min = Ok poes /\
      c !! imt = Some a /\ c' !! imt = Some a' /\
      (forall k i row j poe,
         indices r_sites !! k = Some i -> i < total ->
         rows poes !! k = Some row ->
         row !! bindex (ncols poes) j = Some poe ->
         ((0 < poe)%R -> item a' i j = 0%R) /\
         (poe = 0%R -> item a' i j = item a i j)) /\
      (proper poes ->
       forall k i row j poe,
         indices r_sites !! k = Some i -> i < total ->
         rows poes !! k = Some row -> row !! j = Some poe ->
         ((0 < poe)%R -> item a' i j = 0%R) /\
         (poe = 0%R -> item a' i j = item a i j)).
Proof.
  intros Hone Hnd H.
  apply fold_rupture_per_imt in H
    as (prob & gsim & ctxs & Hp & Hg & Hc & _ & Hsome).
  rewrite Hone in Hp. injection Hp as <-.
  exists gsim, ctxs. repeat split; try done.
  intros imt levels Himt.
  destruct (Hsome imt levels Himt)
    as (poes & a & a' & Hpoes & Ha & Hmul & Ha').
  exists poes, a, a'. split; [done|]. split; [done|]. split; [done|].
  assert (forall k i row j poe,
            indices r_sites !! k = Some i -> i < total ->
            rows poes !! k = Some row ->
            row !! bindex (ncols poes) j = Some poe ->
            ((0 < poe)%R -> item a' i j = 0%R) /\
            (poe = 0%R -> item a' i j = item a i j)) as Hread;
    [|split; [exact Hread|]].
  2:{ intros Hproper k i row j poe Hk Hi Hrow Hpoe.
      apply (Hread k i row j poe Hk Hi Hrow).
      unfold proper in Hproper. rewrite Forall_lookup in Hproper.
      pose proof (Hproper _ _ Hrow) as Hlen. simpl in Hlen.
      pose proof (lookup_lt_Some _ _ _ Hpoe) as Hj.
      by rewrite bindex_in_range by lia. }
  intros k i row j poe Hk Hi Hrow Hpoe. split.
  - intros Hpos. rewrite (item_imul _ _ _ i j Hmul).
    rewrite (bitem_expand_present _ _ _ _ k i (npow (1 - 1) <$> row) j
               (npow (1 - 1) poe)); try done.
    + replace (1 - 1)%R with 0%R by lra. rewrite npow_0_l_pos by done. lra.
    + unfold arr_map; simpl. by rewrite list_lookup_fmap, Hrow.
    + simpl. by rewrite list_lookup_fmap, Hpoe.
  - intros ->. rewrite (item_imul _ _ _ i j Hmul).
    rewrite (bitem_expand_present _ _ _ _ k i (npow (1 - 1) <$> row) j
               (npow (1 - 1) 0)); try done.
    + replace (1 - 1)%R with 0%R by lra. rewrite npow_0_0. lra.
    + unfold arr_map; simpl. by rewrite list_lookup_fmap, Hrow.
    + simpl. by rewrite list_lookup_fmap, Hpoe.
Qed.

Lemma fold_ruptures_cons n r l s_sites c :
  returned (the_fold_ruptures n (gen_app (r :: l) Stop) s_sites c) =
  returned (the_fold_ruptures n (gen_app [r] Stop) s_sites c)
    ≫= (fun c' => returned (the_fold_ruptures n (gen_app l Stop) s_sites c')).
Proof.
  change (gen_app (r :: l) Stop) with (gen_app [r] (gen_app l Stop)).
  by rewrite fold_ruptures_app, returned_bind.
Qed.

Lemma fold_ruptures_perm n s_sites l l' :
  l ≡ₚ l' ->
  forall c,
    returned (the_fold_ruptures n (gen_app l Stop) s_sites c) =
    returned (the_fold_ruptures n (gen_app l' Stop) s_sites c).
Proof.
  induction 1 as [|r l l' _ IH|r1 r2 l|l1 l2 l3 _ IH1 _ IH2]; intros c.
  - done.
  - rewrite (fold_ruptures_cons n r l), (fold_ruptures_cons n r l').
    by apply option_bind_ext_fun.
  - rewrite (fold_ruptures_cons n r2 (r1 :: l)).
    rewrite (fold_ruptures_cons n r1 (r2 :: l)).
    etrans; [apply option_bind_ext_fun; intros c';
             apply (fold_ruptures_cons n r1 l)|].
    etrans; [|symmetry; apply option_bind_ext_fun; intros c';
              apply (fold_ruptures_cons n r2 l)].
    apply (bind_comm_under
             (fun c' => returned
                          (the_fold_ruptures n (gen_app [r2] Stop) s_sites c'))
             (fun c' => returned
                          (the_fold_ruptures n (gen_app [r1] Stop) s_sites c'))
             (fun c' => returned
                          (the_fold_ruptures n (gen_app l Stop) s_sites c'))
             c).
    apply (product_step_comm
             (fun c' => returned
                          (the_fold_ruptures n (gen_app [r2] Stop) s_sites c'))
             (fun c' => returned
                          (the_fold_ruptures n (gen_app [r1] Stop) s_sites c')));
      apply fold_ruptures_product.
  - by rewrite IH1.
Qed.

(** X10: the order in which a source yields its ruptures does not matter
    to what the call returns: two sources that the source-site filter
    treats alike and that yield the same ruptures in different orders can be
    swapped for one another. *)
Theorem X10_rupture_order_is_irrelevant
    (sources_before : list Source) source source' sources_after
    (ruptures ruptures' : list Rupture) :
  source_site_filter source' sites = source_site_filter source sites ->
  iter_ruptures source tom = gen_app ruptures Stop ->
  iter_ruptures source' tom = gen_app ruptures' Stop ->
  ruptures ≡ₚ ruptures' ->
  returned (the_calculator (sources_before ++ source :: sources_after)) =
  returned (the_calculator (sources_before ++ source' :: sources_after)).
Proof.
  intros Hfilter Hgen Hgen' Hperm.
  assert (forall c, returned (the_fold_sources tom total [source] c) =
                    returned (the_fold_sources tom total [source'] c))
    as Hsame.
  { intros c. simpl. rewrite Hfilter.
    destruct (source_site_filter source sites) as [[ss|]|]; simpl;
      try done.
    unfold try_source. rewrite Hgen, Hgen'.
    pose proof (fold_ruptures_perm total ss _ _ Hperm c) as Hp.
    destruct (the_fold_ruptures total (gen_app ruptures Stop) ss c);
      destruct (the_fold_ruptures total (gen_app ruptures' Stop) ss c);
      simpl in *; congruence. }
  unfold hazard_curves_poissonian. rewrite !returned_bind.
  f_equal.
  rewrite !(fold_sources_app _ _ _ _ _ _ _ _ _ sources_before).
  rewrite !returned_bind. apply option_bind_ext_fun. intros acc.
  rewrite (fold_sources_cons _ _ _ _ _ _ _ _ _ source).
  rewrite (fold_sources_cons _ _ _ _ _ _ _ _ _ source').
  by rewrite Hsame.
Qed.

End CalculatorEdges.

(** ** The further properties on concrete inputs *)

Lemma X1_witness :
  exists result,
    hazard_curves_poissonian one_site pga_one_level 50 (crust_only 0.5) 3
      source_site_noop_filter rupture_site_noop_filter 0
      [source_a; source_b] = Ok result /\
    forall imt,
      (pga_one_level !! imt = None -> result !! imt = None) /\
      (forall levels, pga_one_level !! imt = Some levels ->
         exists a, result !! imt = Some a /\
                   nrows a = len one_site /\ ncols a = length levels /\
                   Forall (fun row => length row = length levels) (rows a)).
Proof.
  eexists. split; [vm_compute; reflexivity|].
  apply (X1_result_keys_and_shapes one_site pga_one_level 50
           (crust_only 0.5) 3 source_site_noop_filter
           rupture_site_noop_filter 0 [source_a; source_b]).
  vm_compute; reflexivity.
Defined.

Lemma X2_witness :
  hazard_curves_poissonian one_site pga_one_level 50 (crust_only 0.5) 3
    source_site_noop_filter rupture_site_noop_filter 0
    ([source_a] ++ empty_source :: [source_b]) =
  hazard_curves_poissonian one_site pga_one_level 50 (crust_only 0.5) 3
    source_site_noop_filter rupture_site_noop_filter 0
    ([source_a] ++ [source_b]).
Proof.
  apply X2_dropped_or_empty_source_is_neutral.
  right. exists one_site. split; reflexivity.
Defined.

Lemma X3_witness :
  hazard_curves_poissonian one_site pga_one_level 50 (crust_only 0.5) 3
    source_site_noop_filter drop_volcanic 0
    ([source_a] ++ mixed_source :: [source_b]) =
  hazard_curves_poissonian one_site pga_one_level 50 (crust_only 0.5) 3
    source_site_noop_filter drop_volcanic 0
    ([source_a] ++ unmixed_source :: [source_b]).
Proof.
  apply (X3_dropped_rupture_is_neutral one_site pga_one_level 50
           (crust_only 0.5) 3 source_site_noop_filter drop_volcanic 0
           [source_a] mixed_source unmixed_source [source_b]
           [rupture_01] volcanic_rupture (Yield rupture_02 Stop)).
  - reflexivity.
  - reflexivity.
  - reflexivity.
  - reflexivity.
  - intros s_sites _. reflexivity.
Defined.

Lemma X4_witness :
  (exists source,
     source ∈ [source_a; volcanic_source] /\
     source_site_noop_filter source one_site =
       Raise (RuntimeError
                "An error occurred with source id=v. Error: Volcanic")) \/
  (exists source s_sites acc err,
     source ∈ [source_a; volcanic_source] /\
     source_site_noop_filter source one_site = Ok (Some s_sites) /\
     fold_ruptures pga_one_level (crust_only 0.5) 3 rupture_site_noop_filter
       0 (len one_site) (iter_ruptures source (PoissonTOM 50)) s_sites acc
       = Raise err /\
     RuntimeError "An error occurred with source id=v. Error: Volcanic" =
     RuntimeError
       ("An error occurred with source id=" +:+ source_id source +:+
        ". Error: " +:+ message err)).
Proof.
  apply (X4_errors_that_escape one_site pga_one_level 50 (crust_only 0.5) 3
           source_site_noop_filter rupture_site_noop_filter 0
           [source_a; volcanic_source]).
  - lra.
  - vm_compute; reflexivity.
Defined.

Lemma X5_witness :
  exists curves_a curves_b,
    hazard_curves_poissonian one_site pga_one_level 50 (crust_only 0.5) 3
      source_site_noop_filter rupture_site_noop_filter 0 [source_a]
      = Ok curves_a /\
    hazard_curves_poissonian one_site pga_one_level 50 (crust_only 0.5) 3
      source_site_noop_filter rupture_site_noop_filter 0 [source_b]
      = Ok curves_b /\
    exists curves_ab,
      hazard_curves_poissonian one_site pga_one_level 50 (crust_only 0.5) 3
        source_site_noop_filter rupture_site_noop_filter 0
        ([source_a] ++ [source_b]) = Ok curves_ab /\
      forall imt levels, pga_one_level !! imt = Some levels ->
      exists a b ab,
        curves_a !! imt = Some a /\ curves_b !! imt = Some b /\
        curves_ab !! imt = Some ab /\
        forall i j, i < len one_site -> j < length levels ->
          item ab i j = (1 - (1 - item a i j) * (1 - item b i j))%R.
Proof.
  do 2 eexists. split; [vm_compute; reflexivity|]. split; [vm_compute; reflexivity|].
  apply (X5_concatenation_law one_site pga_one_level 50 (crust_only 0.5) 3
           source_site_noop_filter rupture_site_noop_filter 0
           [source_a] [source_b]); vm_compute; reflexivity.
Defined.

Lemma without_site_1_never_keeps_it r s rs :
  without_site_1 r s = Ok (Some rs) -> 1 ∉ indices rs.
Proof.
  intros [= <-]. simpl. intros Hin.
  apply list_elem_of_filter in Hin as [Hne _]. done.
Qed.

Lemma X6_witness :
  exists result,
    hazard_curves_poissonian two_site_collection pga_one_level 50
      (crust_only 0.5) 3 source_site_noop_filter without_site_1 0
      [source_a; source_b] = Ok result /\
    forall imt levels, pga_one_level !! imt = Some levels ->
    exists a, result !! imt = Some a /\
              forall j, j < length levels -> item a 1 j = 0%R.
Proof.
  eexists. split; [vm_compute; reflexivity|].
  apply (X6_site_never_kept_has_zero_hazard two_site_collection
           pga_one_level 50 (crust_only 0.5) 3 source_site_noop_filter
           without_site_1 0 [source_a; source_b]).
  - apply without_site_1_never_keeps_it.
  - unfold two_site_collection, complete, len. simpl. lia.
  - vm_compute; reflexivity.
Defined.

Lemma X7_witness :
  exists curves_a curves_ab,
    hazard_curves_poissonian one_site pga_one_level 50 (crust_only 0.5) 3
      source_site_noop_filter rupture_site_noop_filter 0 [source_a]
      = Ok curves_a /\
    hazard_curves_poissonian one_site pga_one_level 50 (crust_only 0.5) 3
      source_site_noop_filter rupture_site_noop_filter 0
      ([source_a] ++ [source_b]) = Ok curves_ab /\
    forall imt levels, pga_one_level !! imt = Some levels ->
    exists a ab,
      curves_a !! imt = Some a /\ curves_ab !! imt = Some ab /\
      forall i j, i < len one_site -> j < length levels ->
        (item a i j <= item ab i j)%R.
Proof.
  assert (0 <= 0.5 <= 1)%R as Hhalf by lra.
  do 2 eexists. split; [vm_compute; reflexivity|]. split; [vm_compute; reflexivity|].
  apply (X7_more_sources_never_lower_the_curves one_site pga_one_level 50
           (crust_only 0.5) 3 source_site_noop_filter
           rupture_site_noop_filter 0 (stub_poes_in01 0.5 Hhalf)
           [source_a] [source_b]).
  - intros source rupture Hs Hy prob Hprob.
    apply elem_of_cons in Hs as [->|Hs].
    + destruct Hy as [->|[]]. injection Hprob as <-. lra.
    + apply list_elem_of_singleton in Hs as ->.
      destruct Hy as [->|[]]. injection Hprob as <-. lra.
  - vm_compute; reflexivity.
  - vm_compute; reflexivity.
Defined.

Lemma stub_poes_proper poe gsim ctxs (imt : string) levels poes :
  crust_only poe !! crust = Some gsim ->
  get_poes_cav gsim ctxs imt levels 3 0 = Ok poes ->
  proper poes.
Proof.
  intros Hg Hp. unfold crust_only in Hg.
  apply lookup_singleton_Some in Hg as [_ <-]. simpl in Hp.
  injection Hp as <-. unfold proper; simpl.
  apply Forall_replicate. by rewrite length_replicate.
Qed.

Lemma X8_witness :
  exists c',
    fold_rupture pga_one_level (crust_only 0.5) 3 0 (len one_site)
      rupture_never one_site (init_curves one_site pga_one_level) = Ok c' /\
    forall imt a, init_curves one_site pga_one_level !! imt = Some a ->
    exists a', c' !! imt = Some a' /\
               forall i j, i < len one_site -> j < ncols a ->
                           item a' i j = item a i j.
Proof.
  eexists. split; [vm_compute; reflexivity|].
  apply (X8_rupture_that_never_occurs_is_neutral one_site pga_one_level
           (crust_only 0.5) 3 0 rupture_never one_site).
  - reflexivity.
  - intros gsim ctxs imt levels poes. apply stub_poes_proper.
  - vm_compute; reflexivity.
Defined.

Lemma X9_witness :
  exists c',
    fold_rupture pga_one_level (crust_only 0.5) 3 0 (len one_site)
      rupture_certain one_site (init_curves one_site pga_one_level)
      = Ok c' /\
    exists gsim ctxs,
      crust_only 0.5 !! tectonic_region_type rupture_certain = Some gsim /\
      make_contexts gsim one_site rupture_certain = Ok ctxs /\
      forall imt levels, pga_one_level !! imt = Some levels ->
      exists poes a a',
        get_poes_cav gsim ctxs imt levels 3 0 = Ok poes /\
        init_curves one_site pga_one_level !! imt = Some a /\
        c' !! imt = Some a' /\
        (forall k i row j poe,
           indices one_site !! k = Some i -> i < len one_site ->
           rows poes !! k = Some row ->
           row !! bindex (ncols poes) j = Some poe ->
           ((0 < poe)%R -> item a' i j = 0%R) /\
           (poe = 0%R -> item a' i j = item a i j)) /\
        (proper poes ->
         forall k i row j poe,
           indices one_site !! k = Some i -> i < len one_site ->
           rows poes !! k = Some row -> row !! j = Some poe ->
           ((0 < poe)%R -> item a' i j = 0%R) /\
           (poe = 0%R -> item a' i j = item a i j)).
Proof.
  eexists. split; [vm_compute; reflexivity|].
  apply (X9_rupture_that_occurs_for_sure one_site pga_one_level
           (crust_only 0.5) 3 0 rupture_certain one_site).
  - reflexivity.
  - apply NoDup_singleton.
  - vm_compute; reflexivity.
Defined.

Lemma X10_witness :
  returned
    (hazard_curves_poissonian one_site pga_one_level 50 (crust_only 0.5) 3
       source_site_noop_filter rupture_site_noop_filter 0
       ([source_a] ++ unmixed_source :: [source_b])) =
  returned
    (hazard_curves_poissonian one_site pga_one_level 50 (crust_only 0.5) 3
       source_site_noop_filter rupture_site_noop_filter 0
       ([source_a] ++ reversed_source :: [source_b])).
Proof.
  apply (X10_rupture_order_is_irrelevant one_site pga_one_level 50
           (crust_only 0.5) 3 source_site_noop_filter
           rupture_site_noop_filter 0 [source_a] unmixed_source
           reversed_source [source_b] [rupture_01; rupture_02]
           [rupture_02; rupture_01]).
  - reflexivity.
  - reflexivity.
  - reflexivity.
  - apply perm_swap.
Defined.

(** * Further properties of the GMPE *)

Lemma ln_10_pos : (0 < ln 10)%R.
Proof. rewrite <- ln_1. apply ln_increasing; lra. Qed.

Lemma ln_npow_10 x : ln (npow 10 x) = (x * ln 10)%R.
Proof.
  unfold npow. destruct (Req_dec_T 10 0) as [H|_]; [lra|].
  unfold Rpower. apply ln_exp.
Qed.

Lemma npow_10_pos x : (0 < npow 10 x)%R.
Proof.
  unfold npow. destruct (Req_dec_T 10 0) as [H|_]; [lra|].
  unfold Rpower. apply exp_pos.
Qed.

Lemma ln_mean a m b r c :
  ln (npow 10 (a * m + (b * r - BergeThierry2003.log10 r) + c) / 981) =
  (ln 10 * (a * m + b * r + c) - ln r - ln 981)%R.
Proof.
  unfold Rdiv. rewrite ln_mult; [|apply npow_10_pos|lra].
  rewrite ln_Rinv by lra. rewrite ln_npow_10.
  unfold BergeThierry2003.log10. pose proof ln_10_pos. field. lra.
Qed.

Section GMPEMore.

Context (COEFFS05 COEFFS20 : BergeThierry2003.IMT ->
                             result BergeThierry2003.Coeffs).

Import BergeThierry2003.

Local Abbreviation the_get_mean_and_stddevs :=
  (get_mean_and_stddevs COEFFS05 COEFFS20).

Lemma table_for_supported period damping C :
  (damping = 5%R /\ COEFFS05 (SA period damping) = Ok C) \/
  (damping = 20%R /\ COEFFS20 (SA period damping) = Ok C) ->
  exists table, table_for COEFFS05 COEFFS20 damping = Ok table /\
                table (SA period damping) = Ok C.
Proof.
  unfold table_for. intros [[-> HC]|[-> HC]].
  - destruct (Req_dec_T 5 5) as [_|H]; [eauto|lra].
  - destruct (Req_dec_T 20 5) as [H|_]; [lra|].
    destruct (Req_dec_T 20 20) as [_|H]; [eauto|lra].
Qed.

Lemma stddevs_loop_total C stddev_types num_sites :
  Forall (fun t => t ∈ DEFINED_FOR_STANDARD_DEVIATION_TYPES) stddev_types ->
  stddevs_loop C stddev_types num_sites =
  Ok (replicate (length stddev_types) (replicate num_sites (std C + 0)%R)).
Proof.
  induction 1 as [|t ts Ht _ IH]; simpl; [done|].
  apply list_elem_of_singleton in Ht as ->. by rewrite IH.
Qed.

Lemma stddevs_loop_other C stddev_types num_sites :
  ~ Forall (fun t => t ∈ DEFINED_FOR_STANDARD_DEVIATION_TYPES) stddev_types ->
  stddevs_loop C stddev_types num_sites = Raise (AssertionError "").
Proof.
  induction stddev_types as [|t ts IH]; intros Hnot; simpl.
  - destruct Hnot. constructor.
  - destruct t; try done.
    rewrite IH; [done|]. intros Hts. apply Hnot. constructor; [|done].
    apply list_elem_of_here.
Qed.

(** X11: [get_mean_and_stddevs] accepts only spectral accelerations with
    5% or 20% damping: [PGA] and [PGV] raise [IndexError], any other damping
    raises [KeyError], damping 5 is looked up in [COEFFS05] and damping 20
    in [COEFFS20], and an error of that look-up is what the call raises. *)
Theorem X11_supported_intensity_measures
    (sites rup dists : Context) (stddev_types : list StdDev) :
  (forall imt, imt = PGA \/ imt = PGV ->
     exists e, the_get_mean_and_stddevs sites rup dists imt stddev_types
                 = Raise e /\ exn_type e = "IndexError") /\
  (forall period damping, damping <> 5%R -> damping <> 20%R ->
     exists e, the_get_mean_and_stddevs sites rup dists (SA period damping)
                 stddev_types = Raise e /\ exn_type e = "KeyError") /\
  (forall period e, COEFFS05 (SA period 5) = Raise e ->
     the_get_mean_and_stddevs sites rup dists (SA period 5) stddev_types
       = Raise e) /\
  (forall period e, COEFFS20 (SA period 20) = Raise e ->
     the_get_mean_and_stddevs sites rup dists (SA period 20) stddev_types
       = Raise e).
Proof.
  repeat split.
  - intros imt [-> | ->]; by eexists.
  - intros period damping H5 H20. unfold get_mean_and_stddevs; simpl.
    unfold table_for. destruct (Req_dec_T damping 5); [done|].
    destruct (Req_dec_T damping 20); [done|]. by eexists.
  - intros period e He. unfold get_mean_and_stddevs; simpl.
    unfold table_for. destruct (Req_dec_T 5 5) as [_|H]; [|lra].
    simpl. by rewrite He.
  - intros period e He. unfold get_mean_and_stddevs; simpl.
    unfold table_for. destruct (Req_dec_T 20 5) as [H|_]; [lra|].
    destruct (Req_dec_T 20 20) as [_|H]; [|lra]. simpl. by rewrite He.
Qed.

(** X12: [_get_stddevs] returns one row per requested type, each holding
    [10 ** std] once per site, when every requested type is in
    [DEFINED_FOR_STANDARD_DEVIATION_TYPES]; otherwise its assertion
    fails. *)
Theorem X12_get_stddevs (C : Coeffs) (stddev_types : list StdDev)
    (num_sites : nat) :
  (Forall (fun t => t ∈ DEFINED_FOR_STANDARD_DEVIATION_TYPES) stddev_types ->
   _get_stddevs C stddev_types num_sites =
   Ok (replicate (length stddev_types)
         (replicate num_sites (Rpower 10 (std C))))) /\
  (~ Forall (fun t => t ∈ DEFINED_FOR_STANDARD_DEVIATION_TYPES) stddev_types ->
   exists e, _get_stddevs C stddev_types num_sites = Raise e /\
             exn_type e = "AssertionError").
Proof.
  split.
  - intros Hall. unfold _get_stddevs.
    rewrite stddevs_loop_total by done. simpl.
    rewrite !fmap_replicate. do 3 f_equal.
    unfold npow. destruct (Req_dec_T 10 0) as [H|_]; [lra|].
    by rewrite Rplus_0_r.
  - intros Hnot. unfold _get_stddevs.
    rewrite stddevs_loop_other by done. by eexists.
Qed.

(** The mean and the standard deviations in closed form. *)
Lemma get_mean_and_stddevs_closed_form
    (sites rup dists : Context) period damping (stddev_types : list StdDev)
    (C : Coeffs) (m r : R) (vs30s : list R) :
  (damping = 5%R /\ COEFFS05 (SA period damping) = Ok C) \/
  (damping = 20%R /\ COEFFS20 (SA period damping) = Ok C) ->
  rup !! "mag" = Some (Scalar m) ->
  rup !! "rhypo" = Some (Scalar r) ->
  (0 < r)%R ->
  sites !! "vs30" = Some (Vec vs30s) ->
  Forall (fun t => t ∈ DEFINED_FOR_STANDARD_DEVIATION_TYPES) stddev_types ->
  the_get_mean_and_stddevs sites rup dists (SA period damping) stddev_types =
  Ok (Vec ((fun vs30 =>
              (ln 10 * (a C * m + b C * r +
                        (if Rge_dec vs30 800 then c1 C else c2 C))
               - ln r - ln 981)%R) <$> vs30s),
      replicate (length stddev_types)
        (replicate (length vs30s) (std C * ln 10)%R)).
Proof.
  intros Htable Hmag Hrhypo Hr Hvs30 Htotal.
  destruct (table_for_supported _ _ _ Htable) as (table & Ht & HC).
  unfold get_mean_and_stddevs. simpl. rewrite Ht. simpl. rewrite HC. simpl.
  unfold _compute_magnitude_scaling, getattr. rewrite Hmag. simpl.
  unfold _compute_distance_scaling, getattr. rewrite Hrhypo. simpl.
  unfold _get_site_amplification, getattr. rewrite Hvs30. simpl.
  unfold _get_stddevs. rewrite stddevs_loop_total by done. simpl.
  do 2 f_equal.
  - f_equal. rewrite <- !list_fmap_compose. apply list_fmap_ext.
    intros i vs30 _. simpl. apply ln_mean.
  - rewrite !fmap_replicate. do 2 f_equal.
    rewrite ln_npow_10. lra.
Qed.

(** X13: for a supported spectral acceleration, a rupture context with a
    magnitude [m] and a positive distance [r] in its [rhypo], and sites with
    their [vs30], the call returns one mean per site,
    [ln 10 * (a m + b r + c) - ln r - ln 981] with [c] the site term, and for
    each requested type one standard deviation per site, [std * ln 10]. *)
Theorem X13_mean_and_stddevs_in_closed_form
    (sites rup dists : Context) period damping (stddev_types : list StdDev)
    (C : Coeffs) (m r : R) (vs30s : list R) :
  (damping = 5%R /\ COEFFS05 (SA period damping) = Ok C) \/
  (damping = 20%R /\ COEFFS20 (SA period damping) = Ok C) ->
  rup !! "mag" = Some (Scalar m) ->
  rup !! "rhypo" = Some (Scalar r) ->
  (0 < r)%R ->
  sites !! "vs30" = Some (Vec vs30s) ->
  Forall (fun t => t ∈ DEFINED_FOR_STANDARD_DEVIATION_TYPES) stddev_types ->
  the_get_mean_and_stddevs sites rup dists (SA period damping) stddev_types =
  Ok (Vec ((fun vs30 =>
              (ln 10 * (a C * m + b C * r +
                        (if Rge_dec vs30 800 then c1 C else c2 C))
               - ln r - ln 981)%R) <$> vs30s),
      replicate (length stddev_types)
        (replicate (length vs30s) (std C * ln 10)%R)).
Proof. apply get_mean_and_stddevs_closed_form. Qed.

(** X14: under the same conditions the means of a rock site and of an
    alluvium site differ by [ln 10 * (c1 - c2)], whatever the magnitude and
    the distance. *)
Theorem X14_site_class_offset
    (sites rup dists : Context) period damping (stddev_types : list StdDev)
    (C : Coeffs) (m r : R) (vs30s : list R) :
  (damping = 5%R /\ COEFFS05 (SA period damping) = Ok C) \/
  (damping = 20%R /\ COEFFS20 (SA period damping) = Ok C) ->
  rup !! "mag" = Some (Scalar m) ->
  rup !! "rhypo" = Some (Scalar r) ->
  (0 < r)%R ->
  sites !! "vs30" = Some (Vec vs30s) ->
  Forall (fun t => t ∈ DEFINED_FOR_STANDARD_DEVIATION_TYPES) stddev_types ->
  exists means stddevs,
    the_get_mean_and_stddevs sites rup dists (SA period damping)
      stddev_types = Ok (Vec means, stddevs) /\
    length means = length vs30s /\
    forall i k vs30_rock vs30_alluvium mean_rock mean_alluvium,
      vs30s !! i = Some vs30_rock -> vs30s !! k = Some vs30_alluvium ->
      (800 <= vs30_rock)%R -> (vs30_alluvium < 800)%R ->
      means !! i = Some mean_rock -> means !! k = Some mean_alluvium ->
      (mean_rock - mean_alluvium = ln 10 * (c1 C - c2 C))%R.
Proof.
  intros Htable Hmag Hrhypo Hr Hvs30 Htotal.
  eexists _, _. split; [by apply get_mean_and_stddevs_closed_form|].
  split; [by rewrite length_fmap|].
  intros i k vr va mr ma Hi Hk Hrock Hall Hmr Hma.
  rewrite list_lookup_fmap, Hi in Hmr. rewrite list_lookup_fmap, Hk in Hma.
  simpl in *. injection Hmr as <-. injection Hma as <-.
  destruct (Rge_dec vr 800); [|lra]. destruct (Rge_dec va 800); [lra|]. lra.
Qed.

(** X15: a rupture context that holds exactly the declared
    [REQUIRES_RUPTURE_PARAMETERS] can never be evaluated, even with a
    distance context that holds the declared [REQUIRES_DISTANCES]: once the
    coefficients are found the call raises [AttributeError], as [rhypo] is
    read from the rupture context. *)
Theorem X15_declared_parameters_are_not_enough
    (sites rup dists : Context) (imt : IMT) (stddev_types : list StdDev) :
  dom rup = REQUIRES_RUPTURE_PARAMETERS ->
  dom dists = REQUIRES_DISTANCES ->
  returned (the_get_mean_and_stddevs sites rup dists imt stddev_types)
    = None /\
  (forall period damping C,
     imt = SA period damping ->
     (damping = 5%R /\ COEFFS05 (SA period damping) = Ok C) \/
     (damping = 20%R /\ COEFFS20 (SA period damping) = Ok C) ->
     exists e, the_get_mean_and_stddevs sites rup dists imt stddev_types
                 = Raise e /\ exn_type e = "AttributeError").
Proof.
  intros Hrup _.
  assert (rup !! "rhypo" = None) as Hnone.
  { apply not_elem_of_dom. rewrite Hrup.
    unfold REQUIRES_RUPTURE_PARAMETERS. set_solver. }
  assert (exists v, rup !! "mag" = Some v) as [v Hmag].
  { apply elem_of_dom. rewrite Hrup.
    unfold REQUIRES_RUPTURE_PARAMETERS. set_solver. }
  split.
  - unfold get_mean_and_stddevs.
    destruct (imt_item1 imt) as [damping|]; simpl; [|done].
    destruct (table_for COEFFS05 COEFFS20 damping) as [table|]; simpl;
      [|done].
    destruct (table imt) as [C|]; simpl; [|done].
    unfold _compute_magnitude_scaling, _compute_distance_scaling, getattr.
    by rewrite Hmag, Hnone.
  - intros period damping C -> Htable.
    destruct (table_for_supported _ _ _ Htable) as (table & Ht & HC).
    unfold get_mean_and_stddevs. simpl. rewrite Ht. simpl. rewrite HC. simpl.
    unfold _compute_magnitude_scaling, _compute_distance_scaling, getattr.
    rewrite Hmag, Hnone. simpl. by eexists.
Qed.

(** X16: the outcome of [get_mean_and_stddevs] depends on the contexts only
    through [sites.vs30], [rup.mag] and [rup.rhypo]: contexts that agree on
    these three attributes give the same outcome. *)
Theorem X16_attributes_read
    (sites sites' rup rup' dists dists' : Context) (imt : IMT)
    (stddev_types : list StdDev) :
  sites !! "vs30" = sites' !! "vs30" ->
  rup !! "mag" = rup' !! "mag" ->
  rup !! "rhypo" = rup' !! "rhypo" ->
  the_get_mean_and_stddevs sites rup dists imt stddev_types =
  the_get_mean_and_stddevs sites' rup' dists' imt stddev_types.
Proof.
  intros Hvs30 Hmag Hrhypo.
  unfold get_mean_and_stddevs, _compute_magnitude_scaling,
    _compute_distance_scaling, _get_site_amplification, getattr.
  by rewrite Hvs30, Hmag, Hrhypo.
Qed.

(** X17: when [rup.rhypo] is an array whose length is neither 1 nor the
    number of sites (and there is more than one site), the sum of the three
    terms cannot be broadcast and the call raises [ValueError]. *)
Theorem X17_distance_array_of_wrong_length
    (sites rup dists : Context) period damping (stddev_types : list StdDev)
    (C : Coeffs) (m : R) (rhypos vs30s : list R) :
  (damping = 5%R /\ COEFFS05 (SA period damping) = Ok C) \/
  (damping = 20%R /\ COEFFS20 (SA period damping) = Ok C) ->
  rup !! "mag" = Some (Scalar m) ->
  rup !! "rhypo" = Some (Vec rhypos) ->
  sites !! "vs30" = Some (Vec vs30s) ->
  length rhypos <> length vs30s ->
  length rhypos <> 1 -> length vs30s <> 1 ->
  exists e,
    the_get_mean_and_stddevs sites rup dists (SA period damping) stddev_types
      = Raise e /\ exn_type e = "ValueError".
Proof.
  intros Htable Hmag Hrhypo Hvs30 Hne Hr1 Hv1.
  destruct (table_for_supported _ _ _ Htable) as (table & Ht & HC).
  unfold get_mean_and_stddevs. simpl. rewrite Ht. simpl. rewrite HC. simpl.
  unfold _compute_magnitude_scaling, getattr. rewrite Hmag. simpl.
  unfold _compute_distance_scaling, getattr. rewrite Hrhypo. simpl.
  rewrite decide_True by by rewrite !length_fmap.
  simpl. unfold _get_site_amplification, getattr. rewrite Hvs30. simpl.
  rewrite decide_False.
  2:{ rewrite !length_fmap, length_zip_with, !length_fmap. lia. }
  destruct rhypos as [|r1 [|r2 rs]]; simpl in *; try lia.
  - destruct vs30s as [|v1 [|v2 vs]]; simpl in *; try lia; by eexists.
  - destruct vs30s as [|v1 [|v2 vs]]; simpl in *; try lia; by eexists.
Qed.

End GMPEMore.

(** ** The further properties of the GMPE on concrete inputs *)

Lemma X11_witness :
  (exists e,
     BergeThierry2003.get_mean_and_stddevs table_003 table_003 two_sites
       rup_m5_r10 dists_r10 BergeThierry2003.PGA [BergeThierry2003.TOTAL]
       = Raise e /\ exn_type e = "IndexError") /\
  (exists e,
     BergeThierry2003.get_mean_and_stddevs table_003 table_003 two_sites
       rup_m5_r10 dists_r10 (BergeThierry2003.SA 0.03 10)
       [BergeThierry2003.TOTAL] = Raise e /\ exn_type e = "KeyError").
Proof.
  pose proof (X11_supported_intensity_measures table_003 table_003 two_sites
                rup_m5_r10 dists_r10 [BergeThierry2003.TOTAL])
    as (Hpga & Hdamping & _ & _).
  split.
  - apply Hpga. by left.
  - apply Hdamping; lra.
Defined.

Lemma X12_witness :
  BergeThierry2003._get_stddevs row_003
    [BergeThierry2003.TOTAL; BergeThierry2003.TOTAL] 2 =
  Ok (replicate 2 (replicate 2 (Rpower 10 (BergeThierry2003.std row_003))))
  /\
  (exists e,
     BergeThierry2003._get_stddevs row_003
       [BergeThierry2003.TOTAL; BergeThierry2003.INTER_EVENT] 2 = Raise e /\
     exn_type e = "AssertionError").
Proof.
  split.
  - apply (proj1 (X12_get_stddevs row_003
                    [BergeThierry2003.TOTAL; BergeThierry2003.TOTAL] 2)).
    repeat constructor.
  - apply (proj2 (X12_get_stddevs row_003
                    [BergeThierry2003.TOTAL; BergeThierry2003.INTER_EVENT]
                    2)).
    intros H. apply Forall_cons in H as [_ H].
    apply Forall_cons in H as [H _].
    apply list_elem_of_singleton in H. discriminate H.
Defined.

Lemma X13_witness :
  BergeThierry2003.get_mean_and_stddevs table_003 table_003 two_sites
    rup_m5_r10 dists_r10 (BergeThierry2003.SA 0.03 5)
    [BergeThierry2003.TOTAL] =
  Ok (Vec ((fun vs30 =>
              (ln 10 * (BergeThierry2003.a row_003 * 5 +
                        BergeThierry2003.b row_003 * 10 +
                        (if Rge_dec vs30 800
                         then BergeThierry2003.c1 row_003
                         else BergeThierry2003.c2 row_003))
               - ln 10 - ln 981)%R) <$> [800%R; 500%R]),
      replicate (length [BergeThierry2003.TOTAL])
        (replicate (length [800%R; 500%R])
           (BergeThierry2003.std row_003 * ln 10)%R)).
Proof.
  apply (X13_mean_and_stddevs_in_closed_form table_003 table_003 two_sites
           rup_m5_r10 dists_r10 0.03 5 [BergeThierry2003.TOTAL] row_003
           5 10 [800%R; 500%R]).
  - left. split; reflexivity.
  - reflexivity.
  - reflexivity.
  - lra.
  - reflexivity.
  - repeat constructor.
Defined.

Lemma X14_witness :
  exists means stddevs,
    BergeThierry2003.get_mean_and_stddevs table_003 table_003 two_sites
      rup_m5_r10 dists_r10 (BergeThierry2003.SA 0.03 5)
      [BergeThierry2003.TOTAL] = Ok (Vec means, stddevs) /\
    length means = length [800%R; 500%R] /\
    forall i k vs30_rock vs30_alluvium mean_rock mean_alluvium,
      [800%R; 500%R] !! i = Some vs30_rock ->
      [800%R; 500%R] !! k = Some vs30_alluvium ->
      (800 <= vs30_rock)%R -> (vs30_alluvium < 800)%R ->
      means !! i = Some mean_rock -> means !! k = Some mean_alluvium ->
      (mean_rock - mean_alluvium =
       ln 10 * (BergeThierry2003.c1 row_003 - BergeThierry2003.c2 row_003))%R.
Proof.
  apply (X14_site_class_offset table_003 table_003 two_sites
           rup_m5_r10 dists_r10 0.03 5 [BergeThierry2003.TOTAL] row_003
           5 10 [800%R; 500%R]).
  - left. split; reflexivity.
  - reflexivity.
  - reflexivity.
  - lra.
  - reflexivity.
  - repeat constructor.
Defined.

Lemma X15_witness :
  returned
    (BergeThierry2003.get_mean_and_stddevs table_003 table_003 two_sites
       rup_m5 dists_r10 (BergeThierry2003.SA 0.03 5)
       [BergeThierry2003.TOTAL]) = None /\
  (exists e,
     BergeThierry2003.get_mean_and_stddevs table_003 table_003 two_sites
       rup_m5 dists_r10 (BergeThierry2003.SA 0.03 5)
       [BergeThierry2003.TOTAL] = Raise e /\
     exn_type e = "AttributeError").
Proof.
  destruct (X15_declared_parameters_are_not_enough table_003 table_003
              two_sites rup_m5 dists_r10 (BergeThierry2003.SA 0.03 5)
              [BergeThierry2003.TOTAL]) as [Hnone Herr].
  - apply dom_singleton_L.
  - apply dom_singleton_L.
  - split; [exact Hnone|].
    apply (Herr 0.03%R 5%R row_003 eq_refl). left. split; reflexivity.
Defined.

Lemma X16_witness :
  BergeThierry2003.get_mean_and_stddevs table_003 table_003 two_sites
    rup_m5_r10 ∅ (BergeThierry2003.SA 0.03 5) [BergeThierry2003.TOTAL] =
  BergeThierry2003.get_mean_and_stddevs table_003 table_003
    (<["z1pt0" := Scalar 1%R]> two_sites)
    (<["rake" := Scalar 90%R]> rup_m5_r10) dists_r10
    (BergeThierry2003.SA 0.03 5) [BergeThierry2003.TOTAL].
Proof.
  apply X16_attributes_read; reflexivity.
Defined.

Lemma X17_witness :
  exists e,
    BergeThierry2003.get_mean_and_stddevs table_003 table_003 two_sites
      rup_m5_r3 dists_r10 (BergeThierry2003.SA 0.03 5)
      [BergeThierry2003.TOTAL] = Raise e /\
    exn_type e = "ValueError".
Proof.
  apply (X17_distance_array_of_wrong_length table_003 table_003 two_sites
           rup_m5_r3 dists_r10 0.03 5 [BergeThierry2003.TOTAL] row_003 5
           [10%R; 20%R; 30%R] [800%R; 500%R]).
  - left. split; reflexivity.
  - reflexivity.
  - reflexivity.
  - reflexivity.
  - simpl. lia.
  - simpl. lia.
  - simpl. lia.
Defined.
